(** * release.go: release notes from merged pull requests

    A shallow embedding of [src/release.go].  The program pages through the
    closed pull requests of a repository, records the merge times of two
    boundary pull requests ("last" and "current"), sorts the merged ones by
    merge time, writes a bullet line for each one merged strictly between
    the boundaries and optionally publishes a release with those lines as
    its body.

    The GitHub client, [sort.Sort], [fmt] and [os.Exit] are outside the
    repository.  The server is an oracle whose answers may depend on the
    whole history of the run; the sorting routine is an arbitrary program
    over the three methods of [sort.Interface]; every call that is visible
    from outside is logged in a trace. *)

From Stdlib Require Import ZArith Lia.
From stdpp Require Import base tactics option list relations sorting strings pretty.

Local Open Scope Z_scope.

(** ** Data of the go-github client *)

(** [time.Time] values decoded from JSON carry no monotonic reading, so
    [Before] and [After] compare instants: an instant is its number of
    nanoseconds since the epoch. *)
Definition Time := Z.
Definition Before (t u : Time) : bool := t <? u.
Definition After (t u : Time) : bool := u <? t.

(** [time.Duration] counts nanoseconds. *)
Definition Second : Z := 1000000000.

(** go-github gives every JSON field as a pointer.  The fields GitHub sets
    on every pull request and label (number, title, user login, update
    time, label name) are plain values here; [MergedAt] is the field the
    program tests against nil, and it stays a pointer. *)
Record PullRequest := {
  Number : Z;
  Title : string;
  User_Login : string;
  MergedAt : option Time;
  UpdatedAt : Time
}.

Record Label := { Name : string }.

Record ListOptions := { Page : Z; PerPage : Z }.

Record PullRequestListOptions := {
  State : string;
  Base : string;
  Sort : string;
  Direction : string;
  PRListOptions : ListOptions
}.

(** The release sent by the program sets the first four fields and leaves
    [HTMLURL] nil; the release that comes back is read at [HTMLURL].
    [ReleaseName] is the field [Name] of the Go struct. *)
Record RepositoryRelease := {
  TagName : string;
  ReleaseName : string;
  Prerelease : bool;
  Body : string;
  HTMLURL : option string
}.

(** The answer of an API call: the decoded value, or the error. *)
Inductive response (A : Type) :=
| OK (a : A)
| Err (e : string).
Arguments OK {A} a.
Arguments Err {A} e.

(** ** The command line (the package variables set by [flag.Parse]) *)

Module flag.
Record t := {
  repository : string;
  owner : string;
  base : string;
  last : Z;
  current : Z;
  token : string;
  relnoteFilter : bool;
  releaseName : string;
  tagName : string;
  preRelease : bool
}.
End flag.

(** ** Traces *)

(** An operand of a [fmt] call. *)
Inductive arg :=
| AInt (n : Z)
| AStr (s : string)
| ABytes (s : string)
| AErr (e : string).

(** What a run does that is visible from outside, each API call with the
    answer it got. *)
Inductive event :=
| EPrintf (format : string) (args : list arg)
| EPrintln (args : list arg)
| EList (owner repo : string) (opts : PullRequestListOptions)
        (r : response (list PullRequest))
| ELabels (owner repo : string) (number : Z) (r : response (list Label))
| ESleep (d : Z)
| ECreateRelease (owner repo : string) (release : RepositoryRelease)
                 (r : response RepositoryRelease).

Abbreviation trace := (list event).

(** The server: each answer is a function of the call and of everything
    that happened before it. *)
Record GitHub := {
  srv_List : trace → string → string → PullRequestListOptions →
             response (list PullRequest);
  srv_ListLabelsByIssue : trace → string → string → Z → response (list Label);
  srv_CreateRelease : trace → string → string → RepositoryRelease →
                      response RepositoryRelease
}.

(** ** The monad of the program: a trace, and an early end *)

(** How a run ends before [main] returns: [os.Exit], a nil dereference, or
    (in the model only) a fetch loop that used up its fuel. *)
Inductive halt :=
| Exit (code : Z)
| Panic
| OutOfFuel.

Inductive result (A : Type) :=
| Ret (a : A)
| Halt (h : halt).
Arguments Ret {A} a.
Arguments Halt {A} h.

Definition M (A : Type) : Type := trace → trace * result A.

Global Instance M_ret : MRet M := λ A a tr, (tr, Ret a).
Global Instance M_bind : MBind M := λ A B k m tr,
  match m tr with
  | (tr', Ret a) => k a tr'
  | (tr', Halt h) => (tr', Halt h)
  end.

Definition emit (e : event) : M unit := λ tr, (tr ++ [e], Ret tt).
Definition os_Exit {A} (code : Z) : M A := λ tr, (tr, Halt (Exit code)).
Definition panic {A} : M A := λ tr, (tr, Halt Panic).
Definition out_of_fuel {A} : M A := λ tr, (tr, Halt OutOfFuel).

Definition Printf (format : string) (args : list arg) : M unit :=
  emit (EPrintf format args).
Definition Println (args : list arg) : M unit := emit (EPrintln args).
Definition Sleep (d : Z) : M unit := emit (ESleep d).

Definition PullRequests_List (gh : GitHub) (owner repo : string)
    (opts : PullRequestListOptions) : M (response (list PullRequest)) :=
  λ tr, let r := srv_List gh tr owner repo opts in
        (tr ++ [EList owner repo opts r], Ret r).

Definition Issues_ListLabelsByIssue (gh : GitHub) (owner repo : string)
    (number : Z) : M (response (list Label)) :=
  λ tr, let r := srv_ListLabelsByIssue gh tr owner repo number in
        (tr ++ [ELabels owner repo number r], Ret r).

Definition Repositories_CreateRelease (gh : GitHub) (owner repo : string)
    (release : RepositoryRelease) : M (response RepositoryRelease) :=
  λ tr, let r := srv_CreateRelease gh tr owner repo release in
        (tr ++ [ECreateRelease owner repo release r], Ret r).

(** ** [byMerged] and [sort.Sort] *)

Abbreviation byMerged := (list PullRequest).

Definition Len (a : byMerged) : nat := length a.

(** [a[i], a[j] = a[j], a[i]]; an index out of range panics ([None]). *)
Definition Swap (a : byMerged) (i j : nat) : option byMerged :=
  x ← a !! i; y ← a !! j; Some (<[j:=x]> (<[i:=y]> a)).

(** [a[i].MergedAt.Before( *a[j].MergedAt)]; a nil [MergedAt] panics. *)
Definition Less (a : byMerged) (i j : nat) : option bool :=
  x ← a !! i; y ← a !! j;
  t ← MergedAt x; u ← MergedAt y;
  Some (Before t u).

(** A sorting routine sees the data through [Len], [Less] and [Swap] only:
    once it knows the length it is a decision tree of comparisons and
    swaps. *)
Inductive sort_prog :=
| SortDone
| SortLess (i j : nat) (if_true if_false : sort_prog)
| SortSwap (i j : nat) (next : sort_prog).

Fixpoint sort_run (p : sort_prog) (a : byMerged) : option byMerged :=
  match p with
  | SortDone => Some a
  | SortLess i j pt pf =>
      b ← Less a i j; sort_run (if b : bool then pt else pf) a
  | SortSwap i j p' => a' ← Swap a i j; sort_run p' a'
  end.

Definition sort_alg := nat → sort_prog.

Definition sort_Sort (alg : sort_alg) (a : byMerged) : M byMerged :=
  match sort_run (alg (Len a)) a with
  | Some a' => mret a'
  | None => panic
  end.

(** ** [main] *)

Definition nl : string := String (Ascii.ascii_of_nat 10) EmptyString.

Definition usage_text : string :=
  "usage: release --last=<number> --current=<number>" +:+ nl +:+
  "                     --token=<token> [--base=<branch-name>]" +:+ nl.

Definition releaseUsage_text : string :=
  "usage: release --releaseName=<releaseName> --tagName=<tagName>" +:+ nl +:+
  "                     --preRelease=<false>" +:+ nl.

Definition usage : M unit := Printf usage_text [].

Definition releaseUsage : M unit := Printf releaseUsage_text [].

(** The variables of [main] that the fetch loop changes, with the package
    variable [current]. *)
Record locals := {
  opts_Page : Z;
  current : Z;
  done : bool;
  prs : list PullRequest;
  lastVersionMerged : option Time;
  currentVersionMerged : option Time
}.

Definition set_Page (s : locals) (p : Z) : locals :=
  {| opts_Page := p; current := current s; done := done s; prs := prs s;
     lastVersionMerged := lastVersionMerged s;
     currentVersionMerged := currentVersionMerged s |}.
Definition set_current (s : locals) (n : Z) : locals :=
  {| opts_Page := opts_Page s; current := n; done := done s; prs := prs s;
     lastVersionMerged := lastVersionMerged s;
     currentVersionMerged := currentVersionMerged s |}.
Definition set_done (s : locals) (b : bool) : locals :=
  {| opts_Page := opts_Page s; current := current s; done := b; prs := prs s;
     lastVersionMerged := lastVersionMerged s;
     currentVersionMerged := currentVersionMerged s |}.
Definition set_prs (s : locals) (l : list PullRequest) : locals :=
  {| opts_Page := opts_Page s; current := current s; done := done s; prs := l;
     lastVersionMerged := lastVersionMerged s;
     currentVersionMerged := currentVersionMerged s |}.
Definition set_lastVersionMerged (s : locals) (t : option Time) : locals :=
  {| opts_Page := opts_Page s; current := current s; done := done s;
     prs := prs s; lastVersionMerged := t;
     currentVersionMerged := currentVersionMerged s |}.
Definition set_currentVersionMerged (s : locals) (t : option Time) : locals :=
  {| opts_Page := opts_Page s; current := current s; done := done s;
     prs := prs s; lastVersionMerged := lastVersionMerged s;
     currentVersionMerged := t |}.

(** Lines 77-91: the state before the first page is asked for. *)
Definition initial (fl : flag.t) : locals :=
  {| opts_Page := 0; current := flag.current fl; done := false; prs := [];
     lastVersionMerged := None; currentVersionMerged := None |}.

Definition opts (fl : flag.t) (page : Z) : PullRequestListOptions :=
  {| State := "closed"; Base := flag.base fl; Sort := "updated";
     Direction := "desc";
     PRListOptions := {| Page := page; PerPage := 100 |} |}.

(** How one pass through the body of [for ix := range results] ends. *)
Inductive flow := Continue | Break.

(** The counters [merged] and [unmerged] of the page being scanned. *)
Record counters := { merged : Z; unmerged : Z }.

(** Lines 113-134: the body of the loop over one page. *)
Definition scan_result (fl : flag.t) (result : PullRequest)
    (s : locals) (c : counters) : M (locals * counters * flow) :=
  match MergedAt result with
  | None =>
      mret (s, {| merged := merged c; unmerged := unmerged c + 1 |}, Continue)
  | Some _ =>
      if Number result =? flag.last fl then
        Printf (" ... found last PR %d." +:+ nl) [AInt (flag.last fl)];;
        mret (set_lastVersionMerged s (MergedAt result), c, Break)
      else if match lastVersionMerged s with
              | Some l => After l (UpdatedAt result)
              | None => false
              end then
        mret (set_done s true, c, Break)
      else
        s1 ← (if Number result =? current s then
                Printf (" ... found current PR %d." +:+ nl) [AInt (current s)];;
                mret (set_currentVersionMerged s (MergedAt result))
              else mret s);
        mret (set_prs s1 (prs s1 ++ [result]),
              {| merged := merged c + 1; unmerged := unmerged c |}, Continue)
  end.

(** Lines 112-135: [for ix := range results]. *)
Fixpoint scan_results (fl : flag.t) (results : list PullRequest)
    (s : locals) (c : counters) : M (locals * counters) :=
  match results with
  | [] => mret (s, c)
  | result :: rest =>
      '(s', c', f) ← scan_result fl result s c;
      match f with
      | Continue => scan_results fl rest s' c'
      | Break => mret (s', c')
      end
  end.

(** Lines 95-136: the body of [for !done]. *)
Definition fetch_page (fl : flag.t) (gh : GitHub) (s : locals) : M locals :=
  let s := set_Page s (opts_Page s + 1) in
  Printf ("Fetching PR list page %2d" +:+ nl) [AInt (opts_Page s)];;
  r ← PullRequests_List gh (flag.owner fl) (flag.repository fl)
        (opts fl (opts_Page s));
  match r with
  | Err e => Printf "Error contacting github: %v" [AErr e];; os_Exit 1
  | OK [] => mret (set_done s true)
  | OK ((first :: _) as results) =>
      s1 ← (if current s =? 0 then
              Println [AInt (Number first)];;
              mret (set_current s (Number first))
            else mret s);
      '(s2, c) ← scan_results fl results s1 {| merged := 0; unmerged := 0 |};
      Printf (" ... %d merged PRs, %d unmerged PRs." +:+ nl)
             [AInt (merged c); AInt (unmerged c)];;
      mret s2
  end.

(** Lines 94-137: [for !done]; each turn of the loop spends one unit of
    fuel. *)
Fixpoint fetch_loop (fl : flag.t) (gh : GitHub) (fuel : nat) (s : locals)
    : M locals :=
  if done s then mret s
  else match fuel with
       | O => out_of_fuel
       | S fuel' => s' ← fetch_page fl gh s; fetch_loop fl gh fuel' s'
       end.

(** The line written for one pull request:
    ["   * %s (#%d, @%s)\n"] at its title, number and author. *)
Definition note_line (pr : PullRequest) : string :=
  "   * " +:+ Title pr +:+ " (#" +:+ pretty (Number pr) +:+ ", @" +:+
  User_Login pr +:+ ")" +:+ nl.

(** Line 141: the test of the window, with Go's order of evaluation: the
    left operand of [&&] dereferences [lastVersionMerged] and
    [pr.MergedAt]; the right one runs only when the left one is true, and
    dereferences [currentVersionMerged]. *)
Definition in_window (s : locals) (pr : PullRequest) : M bool :=
  match lastVersionMerged s, MergedAt pr with
  | Some l, Some m =>
      if Before l m then
        match currentVersionMerged s with
        | Some c => mret (Before m c)
        | None => panic
        end
      else mret false
  | _, _ => panic
  end.

(** Lines 154-158: one line for each label named [release-note]. *)
Fixpoint write_labelled (pr : PullRequest) (labels : list Label)
    (buffer : string) : string :=
  match labels with
  | [] => buffer
  | label :: rest =>
      write_labelled pr rest
        (if String.eqb (Name label) "release-note"
         then buffer +:+ note_line pr else buffer)
  end.

(** Lines 141-160: the body of [for _, pr := range prs]. *)
Definition write_note (fl : flag.t) (gh : GitHub) (s : locals)
    (pr : PullRequest) (buffer : string) : M string :=
  b ← in_window s pr;
  if b : bool then
    if negb (flag.relnoteFilter fl) then mret (buffer +:+ note_line pr)
    else
      Printf "." [];;
      r ← Issues_ListLabelsByIssue gh (flag.owner fl) (flag.repository fl)
            (Number pr);
      Sleep (5 * Second);;
      match r with
      | Err e => Printf "Error contacting github: %v" [AErr e];; os_Exit 1
      | OK labels => mret (write_labelled pr labels buffer)
      end
  else mret buffer.

(** Lines 140-161: [for _, pr := range prs]. *)
Fixpoint write_notes (fl : flag.t) (gh : GitHub) (s : locals)
    (l : list PullRequest) (buffer : string) : M string :=
  match l with
  | [] => mret buffer
  | pr :: rest =>
      buffer' ← write_note fl gh s pr buffer;
      write_notes fl gh s rest buffer'
  end.

(** Lines 88-161: fetch, sort in place, format.  Returns the variables and
    the contents of [buffer]. *)
Definition notes (fl : flag.t) (gh : GitHub) (alg : sort_alg) (fuel : nat)
    : M (locals * string) :=
  s ← fetch_loop fl gh fuel (initial fl);
  sorted ← sort_Sort alg (prs s);
  let s := set_prs s sorted in
  buffer ← write_notes fl gh s (prs s) "";
  mret (s, buffer).

(** Lines 171-177: the release, with the notes as its body. *)
Definition release (fl : flag.t) (body : string) : RepositoryRelease :=
  {| TagName := flag.tagName fl;
     ReleaseName := flag.releaseName fl;
     Prerelease := flag.preRelease fl;
     Body := body;
     HTMLURL := None |}.

(** Lines 162-164: what is printed once the notes are written. *)
Definition notes_block (fl : flag.t) (s : locals) (buffer : string) : trace :=
  [EPrintln [];
   EPrintf ("Release notes for PRs between #%d and #%d against branch %q:" +:+
            nl +:+ nl)
           [AInt (flag.last fl); AInt (current s); AStr (flag.base fl)];
   EPrintf "%s" [ABytes buffer]].

(** Lines 162-183: print the notes, then create the release. *)
Definition publish (fl : flag.t) (gh : GitHub) (s : locals) (buffer : string)
    : M unit :=
  Println [];;
  Printf ("Release notes for PRs between #%d and #%d against branch %q:" +:+
          nl +:+ nl)
         [AInt (flag.last fl); AInt (current s); AStr (flag.base fl)];;
  Printf "%s" [ABytes buffer];;
  if String.eqb (flag.tagName fl) "" || String.eqb (flag.releaseName fl) ""
  then releaseUsage;; os_Exit 1
  else
    r ← Repositories_CreateRelease gh "zjj2wry" "console-web"
          (release fl buffer);
    match r with
    | Err e => Printf "Error auto release: %v" [AErr e];; os_Exit 1
    | OK created =>
        match HTMLURL created with
        | Some url => Println [AStr "realese url:"; AStr url]
        | None => panic
        end
    end.

(** Lines 60-184. *)
Definition main (fl : flag.t) (gh : GitHub) (alg : sort_alg) (fuel : nat)
    : M unit :=
  if (flag.last fl =? 0) || String.eqb (flag.token fl) ""
  then usage;; os_Exit 1
  else
    '(s, buffer) ← notes fl gh alg fuel;
    publish fl gh s buffer.

(** A whole run starts from the empty trace. *)
Definition run (fl : flag.t) (gh : GitHub) (alg : sort_alg) (fuel : nat)
    : trace * result unit :=
  main fl gh alg fuel [].

(** ** [sort.Sort]: its contract, and one routine that meets it *)

(** Every index a program uses is below the length it was built for. *)
Fixpoint sort_in_range (n : nat) (p : sort_prog) : bool :=
  match p with
  | SortDone => true
  | SortLess i j pt pf =>
      bool_decide (i < n)%nat && bool_decide (j < n)%nat &&
      sort_in_range n pt && sort_in_range n pf
  | SortSwap i j p' =>
      bool_decide (i < n)%nat && bool_decide (j < n)%nat && sort_in_range n p'
  end.

Definition alg_in_range (alg : sort_alg) : Prop :=
  ∀ n, sort_in_range n (alg n) = true.

(** [sort.IsSorted]: no element is [Less] than the one before it. *)
Definition IsSorted (a : byMerged) : Prop :=
  ∀ i, (S i < Len a)%nat → Less a (S i) i = Some false.

Definition is_merged (pr : PullRequest) : Prop := is_Some (MergedAt pr).

(** What [sort.Sort] promises: when it returns, the data is sorted. *)
Definition alg_sorts (alg : sort_alg) : Prop :=
  ∀ a a', Forall is_merged a → sort_run (alg (Len a)) a = Some a' → IsSorted a'.

(** Go's [insertionSort], the routine [sort.Sort] runs on a slice of fewer
    than twelve elements: [for j := i; j > 0 && Less(j, j-1); j--] swaps
    [j] and [j-1]. *)
Fixpoint sift (j : nat) (next : sort_prog) : sort_prog :=
  match j with
  | O => next
  | S j' => SortLess (S j') j' (SortSwap (S j') j' (sift j' next)) next
  end.

Fixpoint insertion_loop (count i : nat) : sort_prog :=
  match count with
  | O => SortDone
  | S count' => sift i (insertion_loop count' (S i))
  end.

Definition insertionSort : sort_alg := λ n, insertion_loop (n - 1) 1.

(** ** Notions of the statements *)

(** The text of the lines of a list of pull requests. *)
Fixpoint lines (es : list PullRequest) : string :=
  match es with
  | [] => ""
  | pr :: rest => note_line pr +:+ lines rest
  end.

Definition merged_le (p q : PullRequest) : Prop :=
  ∃ t u, MergedAt p = Some t ∧ MergedAt q = Some u ∧ t ≤ u.

(** Merged strictly after the recorded "last" and strictly before the
    recorded "current". *)
Definition strictly_between (s : locals) (pr : PullRequest) : Prop :=
  ∃ l m c, lastVersionMerged s = Some l ∧ MergedAt pr = Some m ∧
           currentVersionMerged s = Some c ∧ l < m < c.

(** The pull request came in a page of the run. *)
Definition fetched (tr : trace) (pr : PullRequest) : Prop :=
  ∃ o r op results, EList o r op (OK results) ∈ tr ∧ pr ∈ results.

(** The run asked for the labels of the pull request and the answer named
    [release-note]. *)
Definition labelled (fl : flag.t) (tr : trace) (pr : PullRequest) : Prop :=
  ∃ labels label,
    ELabels (flag.owner fl) (flag.repository fl) (Number pr) (OK labels) ∈ tr ∧
    label ∈ labels ∧ Name label = "release-note".

(** One turn of [for !done] that runs to its end. *)
Definition fetch_step (fl : flag.t) (gh : GitHub)
    (x y : locals * trace) : Prop :=
  done x.1 = false ∧ fetch_page fl gh x.1 x.2 = (y.2, Ret y.1).

(** Line 125: the scan is past the pull requests of the window. *)
Definition past_last (s : locals) (result : PullRequest) : bool :=
  match lastVersionMerged s with
  | Some l => After l (UpdatedAt result)
  | None => false
  end.

(** The pull requests that line 133 appends to [prs]. *)
Definition accumulated (fl : flag.t) (s : locals) (result : PullRequest)
    : bool :=
  bool_decide (is_merged result) && negb (Number result =? flag.last fl) &&
  negb (past_last s result).

(** Merged strictly after the recorded "last". *)
Definition merged_after_last (s : locals) (pr : PullRequest) : Prop :=
  ∃ l m, lastVersionMerged s = Some l ∧ MergedAt pr = Some m ∧ l < m.

(** [es] goes through [l] in order and takes each element some number of
    times, possibly none. *)
Inductive expands : list PullRequest → list PullRequest → Prop :=
| expands_nil : expands [] []
| expands_cons pr n l es :
    expands l es → expands (pr :: l) (replicate n pr ++ es).

(** A trace in which five seconds of sleep follow each call for labels. *)
Inductive paced : trace → Prop :=
| paced_nil : paced []
| paced_labels o r n resp tr :
    paced tr → paced (ELabels o r n resp :: ESleep (5 * Second) :: tr)
| paced_other e tr :
    (∀ o r n resp, e ≠ ELabels o r n resp) → paced tr → paced (e :: tr).

Definition is_create (e : event) : bool :=
  match e with ECreateRelease _ _ _ _ => true | _ => false end.

Definition creates (tr : trace) : trace := filter (λ e, is_create e = true) tr.

(** The number of labels named [release-note]. *)
Fixpoint release_notes (labels : list Label) : nat :=
  match labels with
  | [] => O
  | label :: rest =>
      ((if String.eqb (Name label) "release-note" then 1 else 0) +
       release_notes rest)%nat
  end.

(** The line printed before page [page] is asked for. *)
Definition fetching (page : Z) : event :=
  EPrintf ("Fetching PR list page %2d" +:+ nl) [AInt page].

(** What the fetch loop keeps true of its variables and its trace: the
    candidates are merged and came in a page, and so did the pull requests
    whose merge times were recorded as boundaries. *)
Definition scan_inv (fl : flag.t) (x : locals * trace) : Prop :=
  Forall is_merged (prs x.1) ∧
  Forall (fetched x.2) (prs x.1) ∧
  (∀ l, lastVersionMerged x.1 = Some l →
        ∃ pr, fetched x.2 pr ∧ Number pr = flag.last fl ∧ MergedAt pr = Some l) ∧
  (∀ c, currentVersionMerged x.1 = Some c →
        ∃ pr, fetched x.2 pr ∧ (Number pr = current x.1 ∨ Number pr = 0) ∧
              MergedAt pr = Some c).

(** ** Notions of the further properties *)

(** Output on the terminal, as opposed to a call of the API or a sleep. *)
Definition is_print (e : event) : bool :=
  match e with EPrintf _ _ | EPrintln _ => true | _ => false end.

(** The calls of [PullRequests.List] in a trace, in order: owner,
    repository and options of each. *)
Fixpoint list_calls (tr : trace)
    : list (string * string * PullRequestListOptions) :=
  match tr with
  | [] => []
  | EList o r op _ :: rest => (o, r, op) :: list_calls rest
  | _ :: rest => list_calls rest
  end.

(** The call for page [i] that the program makes. *)
Definition list_call (fl : flag.t) (i : nat)
    : string * string * PullRequestListOptions :=
  (flag.owner fl, flag.repository fl, opts fl (Z.of_nat i)).

(** The test of line 141 as a boolean, false where a boundary is missing. *)
Definition inside (s : locals) (pr : PullRequest) : bool :=
  match lastVersionMerged s, MergedAt pr, currentVersionMerged s with
  | Some l, Some m, Some c => Before l m && Before m c
  | _, _, _ => false
  end.

(** A call for labels, or a sleep. *)
Definition is_label_or_sleep (e : event) : bool :=
  match e with ELabels _ _ _ _ | ESleep _ => true | _ => false end.

(** The answer of a call is an error. *)
Definition is_failure (e : event) : bool :=
  match e with
  | EList _ _ _ (Err _) | ELabels _ _ _ (Err _)
  | ECreateRelease _ _ _ (Err _) => true
  | _ => false
  end.

(** What is printed when a call for a page or for labels fails. *)
Definition contact_error (e : string) : event :=
  EPrintf "Error contacting github: %v" [AErr e].

(** What is printed at the end of the scan of a page. *)
Definition page_counts (m u : Z) : event :=
  EPrintf (" ... %d merged PRs, %d unmerged PRs." +:+ nl) [AInt m; AInt u].

(** The calls for labels in a trace, in order: owner, repository and
    number of each. *)
Fixpoint label_calls (tr : trace) : list (string * string * Z) :=
  match tr with
  | [] => []
  | ELabels o r n _ :: rest => (o, r, n) :: label_calls rest
  | _ :: rest => label_calls rest
  end.

(** ** A small repository, for the examples *)

Module sample.
Definition pr (n : Z) (mergedAt : option Time) (updatedAt : Time)
    : PullRequest :=
  {| Number := n; Title := "change " +:+ pretty n; User_Login := "dev";
     MergedAt := mergedAt; UpdatedAt := updatedAt |}.

(** Closed pull requests, the most recently updated first: #10 is the
    last release, #20 the current one, #14 was closed without a merge, #5
    was merged before #10 and touched again after it. *)
Definition page1 : list PullRequest :=
  [pr 30 (Some 300) 300; pr 20 (Some 200) 200; pr 15 (Some 150) 150;
   pr 14 None 140; pr 5 (Some 50) 120; pr 10 (Some 100) 100;
   pr 3 (Some 30) 30].

(** A server with the pages [pages], that answers every call for labels
    with [labels] and every call to create a release with [created]. *)
Definition server (pages : list (list PullRequest)) (labels : list Label)
    (created : response RepositoryRelease) : GitHub :=
  {| srv_List := λ _ _ _ op,
       OK (default [] (pages !! Z.to_nat (Page (PRListOptions op) - 1)));
     srv_ListLabelsByIssue := λ _ _ _ _, OK labels;
     srv_CreateRelease := λ _ _ _ _, created |}.

Definition flags (last current : Z) (filter : bool) (name tag : string)
    : flag.t :=
  {| flag.repository := "console-web"; flag.owner := "caicloud";
     flag.base := "master"; flag.last := last; flag.current := current;
     flag.token := "secret"; flag.relnoteFilter := filter;
     flag.releaseName := name; flag.tagName := tag;
     flag.preRelease := false |}.

Definition release_note : Label := {| Name := "release-note" |}.
Definition bug : Label := {| Name := "bug" |}.

Definition created (url : string) : RepositoryRelease :=
  {| TagName := "v1.0"; ReleaseName := "1.0"; Prerelease := false;
     Body := ""; HTMLURL := Some url |}.
End sample.

(** Whatever [m] does, it appends to the trace, and what it appends
    satisfies [P]. *)
Definition emits (P : trace → Prop) {A} (m : M A) : Prop :=
  ∀ tr tr' r, m tr = (tr', r) → ∃ ext, tr' = tr ++ ext ∧ P ext.

(** ** The monad *)

Lemma bind_inv {A B} (m : M A) (k : A → M B) tr tr' r :
  (m ≫= k) tr = (tr', r) →
  (∃ tr1 a, m tr = (tr1, Ret a) ∧ k a tr1 = (tr', r)) ∨
  (∃ h, m tr = (tr', Halt h) ∧ r = Halt h).
Proof.
  unfold mbind, M_bind. destruct (m tr) as [tr1 [a|h]]; intros H.
  - left. eauto.
  - right. exists h. by simplify_eq.
Qed.

Lemma bind_Ret_inv {A B} (m : M A) (k : A → M B) tr tr' b :
  (m ≫= k) tr = (tr', Ret b) →
  ∃ tr1 a, m tr = (tr1, Ret a) ∧ k a tr1 = (tr', Ret b).
Proof.
  intros [H|(h & _ & ?)]%bind_inv; [done|discriminate].
Qed.

Lemma bind_Ret {A B} (m : M A) (k : A → M B) tr tr1 a :
  m tr = (tr1, Ret a) → (m ≫= k) tr = k a tr1.
Proof. unfold mbind, M_bind. by intros ->. Qed.

Lemma bind_Halt {A B} (m : M A) (k : A → M B) tr tr1 h :
  m tr = (tr1, Halt h) → (m ≫= k) tr = (tr1, Halt h).
Proof. unfold mbind, M_bind. by intros ->. Qed.

(** ** What the phases append to the trace *)

Create HintDb emits.

Section emits.
Variable P : trace → Prop.
Hypothesis P_nil : P [].
Hypothesis P_app : ∀ t u, P t → P u → P (t ++ u).

Lemma emits_ret {A} (a : A) : emits P (mret a).
Proof. intros tr tr' r [= <- <-]. exists []. by rewrite app_nil_r. Qed.

Lemma emits_os_Exit {A} code : emits P (@os_Exit A code).
Proof. intros tr tr' r [= <- <-]. exists []. by rewrite app_nil_r. Qed.

Lemma emits_panic {A} : emits P (@panic A).
Proof. intros tr tr' r [= <- <-]. exists []. by rewrite app_nil_r. Qed.

Lemma emits_out_of_fuel {A} : emits P (@out_of_fuel A).
Proof. intros tr tr' r [= <- <-]. exists []. by rewrite app_nil_r. Qed.

Lemma emits_emit e : P [e] → emits P (emit e).
Proof. intros He tr tr' r [= <- <-]. eauto. Qed.

Lemma emits_bind {A B} (m : M A) (k : A → M B) :
  emits P m → (∀ a, emits P (k a)) → emits P (m ≫= k).
Proof.
  intros Hm Hk tr tr' r [(tr1 & a & H1 & H2)|(h & H1 & ->)]%bind_inv.
  - destruct (Hm _ _ _ H1) as (e1 & -> & ?).
    destruct (Hk _ _ _ _ H2) as (e2 & -> & ?).
    exists (e1 ++ e2). by rewrite app_assoc; auto.
  - by apply Hm in H1.
Qed.

Hypothesis P_printf : ∀ format args, P [EPrintf format args].
Hypothesis P_println : ∀ args, P [EPrintln args].
Hypothesis P_list : ∀ o r op resp, P [EList o r op resp].
Hypothesis P_labels :
  ∀ o r n resp, P [ELabels o r n resp; ESleep (5 * Second)].

Lemma emits_Printf format args : emits P (Printf format args).
Proof. by apply emits_emit. Qed.

Lemma emits_Println args : emits P (Println args).
Proof. by apply emits_emit. Qed.

Lemma emits_List gh o r op : emits P (PullRequests_List gh o r op).
Proof. intros tr tr' res [= <- <-]. eauto. Qed.

Lemma emits_labels_sleep {B} gh o r n (k : response (list Label) → M B) :
  (∀ resp, emits P (k resp)) →
  emits P (resp ← Issues_ListLabelsByIssue gh o r n;
           Sleep (5 * Second);; k resp).
Proof.
  intros Hk tr tr' res H. unfold Issues_ListLabelsByIssue in H.
  cbv beta iota zeta delta [mbind M_bind Sleep emit] in H.
  apply Hk in H as (e & -> & ?).
  eexists ([_; _] ++ e). split.
  - by rewrite <- !app_assoc.
  - apply P_app; [apply P_labels|done].
Qed.

Local Hint Resolve emits_ret emits_os_Exit emits_panic emits_out_of_fuel
  emits_Printf emits_Println emits_List : emits.

Ltac emits_step :=
  first [ apply emits_bind; [|intros ?]
        | apply emits_labels_sleep; intros ?
        | progress eauto with emits ].

Lemma emits_scan_result fl result s c : emits P (scan_result fl result s c).
Proof.
  unfold scan_result.
  repeat first [ case_match | emits_step ].
Qed.

Lemma emits_scan_results fl results s c :
  emits P (scan_results fl results s c).
Proof.
  revert s c. induction results as [|result rest IH]; intros s c; simpl.
  - apply emits_ret.
  - apply emits_bind; [apply emits_scan_result|].
    intros [[s' c'] []]; [apply IH|apply emits_ret].
Qed.

Lemma emits_fetch_page fl gh s : emits P (fetch_page fl gh s).
Proof.
  unfold fetch_page.
  apply emits_bind; [apply emits_Printf|intros _].
  apply emits_bind; [apply emits_List|intros [[|first rest]|e]].
  - apply emits_ret.
  - apply emits_bind.
    { case_match; repeat emits_step. }
    intros s1. apply emits_bind; [apply emits_scan_results|].
    intros [s2 c]. repeat emits_step.
  - repeat emits_step.
Qed.

Lemma emits_fetch_loop fl gh fuel s : emits P (fetch_loop fl gh fuel s).
Proof.
  revert s. induction fuel as [|fuel IH]; intros s; simpl;
    destruct (done s); try apply emits_ret.
  - apply emits_out_of_fuel.
  - apply emits_bind; [apply emits_fetch_page|done].
Qed.

Lemma emits_sort_Sort alg a : emits P (sort_Sort alg a).
Proof.
  unfold sort_Sort. destruct (sort_run _ _); [apply emits_ret|apply emits_panic].
Qed.

Lemma emits_in_window s pr : emits P (in_window s pr).
Proof. unfold in_window. repeat first [ case_match | emits_step ]. Qed.

Lemma emits_write_note fl gh s pr buffer :
  emits P (write_note fl gh s pr buffer).
Proof.
  unfold write_note.
  apply emits_bind; [apply emits_in_window|intros [|]]; [|apply emits_ret].
  destruct (negb _); [apply emits_ret|].
  apply emits_bind; [apply emits_Printf|intros _].
  apply emits_labels_sleep. intros [labels|e]; repeat emits_step.
Qed.

Lemma emits_write_notes fl gh s l buffer :
  emits P (write_notes fl gh s l buffer).
Proof.
  revert buffer. induction l as [|pr rest IH]; intros buffer; simpl.
  - apply emits_ret.
  - apply emits_bind; [apply emits_write_note|done].
Qed.

Lemma emits_notes fl gh alg fuel : emits P (notes fl gh alg fuel).
Proof.
  unfold notes.
  apply emits_bind; [apply emits_fetch_loop|intros s].
  apply emits_bind; [apply emits_sort_Sort|intros sorted].
  apply emits_bind; [apply emits_write_notes|intros buffer].
  apply emits_ret.
Qed.

Hypothesis P_create : ∀ o r release resp, P [ECreateRelease o r release resp].

Lemma emits_publish fl gh s buffer : emits P (publish fl gh s buffer).
Proof.
  unfold publish, releaseUsage.
  do 3 (apply emits_bind; [eauto with emits|intros _]).
  case_match; [repeat emits_step|].
  apply emits_bind.
  { intros tr tr' res [= <- <-]. eauto. }
  intros [created|e]; [|repeat emits_step].
  case_match; eauto with emits.
Qed.

Lemma emits_main fl gh alg fuel : emits P (main fl gh alg fuel).
Proof.
  unfold main, usage. case_match; [repeat emits_step|].
  apply emits_bind; [apply emits_notes|intros [s buffer]].
  apply emits_publish.
Qed.
End emits.

(** ** The scan of one page *)

Ltac reduce_M H :=
  cbv beta iota zeta delta
    [mbind M_bind mret M_ret Printf Println Sleep emit os_Exit panic
     out_of_fuel] in H.

(** One pass through the body of the page loop never fails, and changes the
    variables as follows. *)
Lemma scan_result_spec fl result s c tr :
  ∃ s' c' f ext,
    scan_result fl result s c tr = (tr ++ ext, Ret (s', c', f)) ∧
    opts_Page s' = opts_Page s ∧
    current s' = current s ∧
    prs s' = (if accumulated fl s result then prs s ++ [result] else prs s) ∧
    lastVersionMerged s' =
      (if bool_decide (is_merged result) && (Number result =? flag.last fl)
       then MergedAt result else lastVersionMerged s) ∧
    currentVersionMerged s' =
      (if accumulated fl s result && (Number result =? current s)
       then MergedAt result else currentVersionMerged s) ∧
    done s' = done s ||
      (bool_decide (is_merged result) && negb (Number result =? flag.last fl)
       && past_last s result) ∧
    f = (if accumulated fl s result || negb (bool_decide (is_merged result))
         then Continue else Break).
Proof.
  unfold scan_result, accumulated, is_merged, past_last.
  destruct (MergedAt result) as [m|] eqn:Hm; simpl;
    [destruct (Number result =? flag.last fl) eqn:Hlast; simpl;
     [|destruct (lastVersionMerged s) as [l|] eqn:Hl; simpl;
       [destruct (After l (UpdatedAt result)) eqn:Hafter; simpl|];
       try destruct (Number result =? current s) eqn:Hcur]|];
    cbv beta iota zeta delta [mbind M_bind mret M_ret Printf emit];
    try (eexists _, _, _, _; split; [reflexivity|]; simpl;
         by rewrite ?Hl, ?Hm, ?orb_false_r, ?orb_true_r);
    eexists _, _, _, []; rewrite app_nil_r; (split; [reflexivity|]); simpl;
    by rewrite ?Hl, ?Hm, ?orb_false_r, ?orb_true_r.
Qed.

(** The scan of a page never fails; it appends pull requests of the page,
    all of them merged, and records boundaries found in the page. *)
Lemma scan_results_spec fl results s c tr :
  ∃ s' c' ext added,
    scan_results fl results s c tr = (tr ++ ext, Ret (s', c')) ∧
    opts_Page s' = opts_Page s ∧
    current s' = current s ∧
    prs s' = prs s ++ added ∧
    Forall is_merged added ∧
    Forall (λ pr, pr ∈ results) added ∧
    (lastVersionMerged s' = lastVersionMerged s ∨
     ∃ pr, pr ∈ results ∧ Number pr = flag.last fl ∧
           is_merged pr ∧ lastVersionMerged s' = MergedAt pr) ∧
    (currentVersionMerged s' = currentVersionMerged s ∨
     ∃ pr, pr ∈ results ∧ Number pr = current s ∧
           is_merged pr ∧ currentVersionMerged s' = MergedAt pr).
Proof.
  revert s c tr. induction results as [|result rest IH]; intros s c tr.
  { exists s, c, [], []. rewrite !app_nil_r. repeat split; auto. }
  destruct (scan_result_spec fl result s c tr)
    as (s1 & c1 & f & e1 & Hrun & HP & Hc & Hprs & Hl & Hcv & _ & Hf).
  simpl. rewrite (bind_Ret _ _ _ _ _ Hrun).
  assert (Hacc : accumulated fl s result = true → is_merged result).
  { unfold accumulated. intros [[?%bool_decide_eq_true _]%andb_true_iff _]%andb_true_iff.
    done. }
  assert (Hadd : ∃ add1, prs s1 = prs s ++ add1 ∧ Forall is_merged add1 ∧
                         Forall (λ pr, pr ∈ result :: rest) add1).
  { rewrite Hprs. destruct (accumulated fl s result).
    - exists [result]. repeat split; auto. repeat constructor.
    - exists []. by rewrite app_nil_r. }
  destruct Hadd as (add1 & Hprs1 & Hm1 & Hsub1).
  assert (Hl1 : lastVersionMerged s1 = lastVersionMerged s ∨
     ∃ pr, pr ∈ result :: rest ∧ Number pr = flag.last fl ∧
           is_merged pr ∧ lastVersionMerged s1 = MergedAt pr).
  { rewrite Hl. destruct (bool_decide (is_merged result)) eqn:Hm; simpl; auto.
    apply bool_decide_eq_true in Hm.
    destruct (Number result =? flag.last fl) eqn:E; auto.
    right. exists result. apply Z.eqb_eq in E. repeat split; auto.
    constructor. }
  assert (Hc1 : currentVersionMerged s1 = currentVersionMerged s ∨
     ∃ pr, pr ∈ result :: rest ∧ Number pr = current s ∧
           is_merged pr ∧ currentVersionMerged s1 = MergedAt pr).
  { rewrite Hcv. destruct (accumulated fl s result); simpl; auto.
    destruct (Number result =? current s) eqn:E; auto.
    right. exists result. apply Z.eqb_eq in E. repeat split; auto.
    constructor. }
  clear Hacc.
  destruct f.
  - destruct (IH s1 c1 (tr ++ e1))
      as (s2 & c2 & e2 & add2 & -> & HP2 & Hcur2 & Hprs2 & Hm2 & Hsub2 & Hl2 & Hc2).
    exists s2, c2, (e1 ++ e2), (add1 ++ add2).
    rewrite app_assoc. split; [done|].
    split; [congruence|]. split; [congruence|].
    split; [by rewrite Hprs2, Hprs1, app_assoc|].
    split; [by apply Forall_app|].
    split.
    { apply Forall_app. split; [done|].
      eapply Forall_impl; [exact Hsub2|]. intros pr ?. by constructor. }
    split.
    + destruct Hl2 as [->|(pr & ? & ? & ? & ->)]; [done|].
      right. exists pr. repeat split; auto. by constructor.
    + destruct Hc2 as [->|(pr & ? & ? & ? & ->)]; [done|].
      right. exists pr. repeat split; auto; [by constructor|congruence].
  - exists s1, c1, e1, add1. repeat split; auto.
Qed.

(** ** One turn of the fetch loop *)

(** A turn that runs to its end got a page from the server; it numbers the
    page, resolves [current] when it is unset, and appends merged pull
    requests of the page. *)
Lemma fetch_page_spec fl gh s tr tr' s' :
  fetch_page fl gh s tr = (tr', Ret s') →
  ∃ results ext added,
    srv_List gh (tr ++ [fetching (opts_Page s + 1)])
      (flag.owner fl) (flag.repository fl) (opts fl (opts_Page s + 1))
      = OK results ∧
    tr' = tr ++ ext ∧
    EList (flag.owner fl) (flag.repository fl) (opts fl (opts_Page s + 1))
      (OK results) ∈ ext ∧
    opts_Page s' = opts_Page s + 1 ∧
    current s' = (if current s =? 0
                  then match results with first :: _ => Number first | [] => 0 end
                  else current s) ∧
    prs s' = prs s ++ added ∧
    Forall is_merged added ∧
    Forall (λ pr, pr ∈ results) added ∧
    (lastVersionMerged s' = lastVersionMerged s ∨
     ∃ pr, pr ∈ results ∧ Number pr = flag.last fl ∧
           is_merged pr ∧ lastVersionMerged s' = MergedAt pr) ∧
    (currentVersionMerged s' = currentVersionMerged s ∨
     ∃ pr, pr ∈ results ∧ Number pr = current s' ∧
           is_merged pr ∧ currentVersionMerged s' = MergedAt pr) ∧
    (results = [] → done s' = true).
Proof.
  unfold fetch_page, PullRequests_List, fetching.
  set (page := opts_Page s + 1).
  intros H. reduce_M H.
  change (opts_Page (set_Page s page)) with page in H.
  change (current (set_Page s page)) with (current s) in H.
  set (tr0 := tr ++ [EPrintf _ [AInt page]]) in *.
  destruct (srv_List gh tr0 _ _ _) as [[|first rest]|e] eqn:Hsrv;
    [| |discriminate].
  - injection H as <- <-.
    exists [], [fetching page; EList (flag.owner fl) (flag.repository fl)
                                 (opts fl page) (OK [])], [].
    rewrite app_nil_r. unfold tr0, fetching. rewrite <- app_assoc. simpl.
    repeat split; auto.
    + apply list_elem_of_further, list_elem_of_here.
    + by destruct (Z.eqb_spec (current s) 0).
  - set (s0 := set_Page s page) in *.
    set (tr1 := tr0 ++ [EList _ _ _ _]) in *.
    set (s1 := if current s =? 0 then set_current s0 (Number first) else s0).
    set (e2 := if current s =? 0
               then [EPrintln [AInt (Number first)]] else []).
    destruct (scan_results_spec fl (first :: rest) s1
                {| merged := 0; unmerged := 0 |} (tr1 ++ e2))
      as (s2 & c2 & e3 & added & Hscan & HP & Hcur & Hprs & Hm & Hsub & Hl & Hc).
    assert (H' : (tr1 ++ e2 ++ e3 ++ [EPrintf (" ... %d merged PRs, %d unmerged PRs." +:+ nl)
                     [AInt (merged c2); AInt (unmerged c2)]], Ret s2)
                 = (tr', Ret s')).
    { rewrite <- H. unfold s1, e2 in Hscan.
      destruct (current s =? 0); rewrite ?app_nil_r in Hscan;
        rewrite Hscan; simpl; by rewrite <- !app_assoc. }
    injection H' as <- <-.
    exists (first :: rest), ([fetching page; EList (flag.owner fl)
              (flag.repository fl) (opts fl page) (OK (first :: rest))]
             ++ e2 ++ e3 ++ [EPrintf (" ... %d merged PRs, %d unmerged PRs." +:+ nl)
                     [AInt (merged c2); AInt (unmerged c2)]]), added.
    split; [done|]. split.
    { unfold tr1, tr0, fetching. by rewrite <- !app_assoc. }
    split; [apply list_elem_of_further, list_elem_of_here|].
    assert (Hs1 : prs s1 = prs s ∧ opts_Page s1 = page ∧
                  lastVersionMerged s1 = lastVersionMerged s ∧
                  currentVersionMerged s1 = currentVersionMerged s ∧
                  current s1 = if current s =? 0 then Number first else current s).
    { unfold s1, s0. by destruct (current s =? 0). }
    destruct Hs1 as (E1 & E2 & E3 & E4 & E5).
    rewrite HP, Hcur, Hprs, E1, E2, E5. repeat split; auto; try done.
    + by rewrite <- E3.
    + rewrite <- E4, <- E5. done.
Qed.

(** A turn ends the run only when the server answers with an error. *)
Lemma fetch_page_halt fl gh s tr tr' h :
  fetch_page fl gh s tr = (tr', Halt h) →
  h = Exit 1 ∧
  ∃ e, srv_List gh (tr ++ [fetching (opts_Page s + 1)])
         (flag.owner fl) (flag.repository fl) (opts fl (opts_Page s + 1))
       = Err e.
Proof.
  unfold fetch_page, PullRequests_List, fetching.
  set (page := opts_Page s + 1).
  intros H. reduce_M H.
  change (opts_Page (set_Page s page)) with page in H.
  change (current (set_Page s page)) with (current s) in H.
  set (tr0 := tr ++ [EPrintf _ [AInt page]]) in *.
  destruct (srv_List gh tr0 _ _ _) as [[|first rest]|e] eqn:Hsrv.
  - discriminate.
  - set (s0 := set_Page s page) in *.
    set (tr1 := tr0 ++ [EList _ _ _ _]) in *.
    destruct (current s =? 0);
      match type of H with
      | context [scan_results ?fl ?l ?s ?c ?t] =>
          destruct (scan_results_spec fl l s c t) as (? & ? & ? & ? & Hs & _);
          rewrite Hs in H
      end; discriminate.
  - injection H as <- <-. eauto.
Qed.

(** ** The fetch loop *)

Lemma fetched_app_l tr ext pr : fetched tr pr → fetched (tr ++ ext) pr.
Proof.
  intros (o & r & op & results & ? & ?). exists o, r, op, results.
  split; [|done]. apply elem_of_app. by left.
Qed.

Lemma fetched_app_r tr ext pr : fetched ext pr → fetched (tr ++ ext) pr.
Proof.
  intros (o & r & op & results & ? & ?). exists o, r, op, results.
  split; [|done]. apply elem_of_app. by right.
Qed.

Lemma scan_inv_init fl tr : scan_inv fl (initial fl, tr).
Proof. repeat split; simpl; by auto. Qed.

Lemma scan_inv_step fl gh x y :
  fetch_step fl gh x y → scan_inv fl x → scan_inv fl y.
Proof.
  destruct x as [s tr], y as [s' tr']. intros [_ Hpage] (Hm & Hf & Hl & Hc).
  simpl in *.
  apply fetch_page_spec in Hpage
    as (results & ext & added & _ & -> & Hev & _ & Hcur & Hprs & Hma & Hsub & Hl' & Hc' & _).
  assert (Hin : ∀ pr, pr ∈ results → fetched (tr ++ ext) pr).
  { intros pr ?. apply fetched_app_r. by eexists _, _, _, _. }
  repeat split; simpl; rewrite ?Hprs.
  - by apply Forall_app.
  - apply Forall_app. split.
    + eapply Forall_impl; [exact Hf|]. intros. by apply fetched_app_l.
    + eapply Forall_impl; [exact Hsub|]. done.
  - intros l E. destruct Hl' as [E'|(pr & ? & ? & _ & E')]; rewrite E' in E.
    + destruct (Hl _ E) as (pr & ? & ? & ?). exists pr.
      auto using fetched_app_l.
    + exists pr. auto.
  - intros c E. destruct Hc' as [E'|(pr & ? & ? & _ & E')]; rewrite E' in E.
    + destruct (Hc _ E) as (pr & ? & Hnum & ?). exists pr.
      repeat split; auto using fetched_app_l.
      rewrite Hcur. destruct (Z.eqb_spec (current s) 0); [|done].
      right. destruct Hnum; congruence.
    + exists pr. auto.
Qed.

Lemma scan_inv_nsteps fl gh n x y :
  nsteps (fetch_step fl gh) n x y → scan_inv fl x → scan_inv fl y.
Proof. induction 1; eauto using scan_inv_step. Qed.

(** A loop that ends has run some turns, each to its end, and the last one
    set [done]. *)
Lemma fetch_loop_nsteps fl gh fuel s tr s' tr' :
  fetch_loop fl gh fuel s tr = (tr', Ret s') →
  done s' = true ∧
  ∃ n, nsteps (fetch_step fl gh) n (s, tr) (s', tr') ∧
       (done s = false → (0 < n)%nat).
Proof.
  revert s tr. induction fuel as [|fuel IH]; intros s tr; simpl;
    destruct (done s) eqn:Hd.
  - intros [= <- <-]. split; [done|]. exists O. split; [constructor|done].
  - discriminate.
  - intros [= <- <-]. split; [done|]. exists O. split; [constructor|done].
  - intros (tr1 & s1 & Hpage & Hloop)%bind_Ret_inv.
    apply IH in Hloop as (? & n & ? & _). split; [done|].
    exists (S n). split; [|lia].
    eapply nsteps_l; [|done]. by split.
Qed.

(** More fuel does not change a run that had enough. *)
Lemma fetch_loop_fuel fl gh fuel fuel' s tr tr' r :
  fetch_loop fl gh fuel s tr = (tr', r) → r ≠ Halt OutOfFuel →
  (fuel ≤ fuel')%nat → fetch_loop fl gh fuel' s tr = (tr', r).
Proof.
  revert fuel' s tr. induction fuel as [|fuel IH]; intros fuel' s tr H Hr Hle.
  - simpl in H. destruct fuel'; simpl; destruct (done s); try done.
    by injection H as <- <-.
  - destruct fuel' as [|fuel']; [lia|]. simpl in *.
    destruct (done s); [done|].
    apply bind_inv in H as [(tr1 & s1 & Hpage & Hloop)|(h & Hpage & ->)].
    + rewrite (bind_Ret _ _ _ _ _ Hpage). apply IH; [done..|lia].
    + by rewrite (bind_Halt _ _ _ _ _ Hpage).
Qed.

(** The loop ends when the server is sure to answer some page with the
    empty list or with an error: fuel for that many pages is enough. *)
Lemma fetch_loop_ends fl gh (k fuel : nat) s tr :
  (∀ tr1, match srv_List gh tr1 (flag.owner fl) (flag.repository fl)
                  (opts fl (opts_Page s + Z.of_nat (S k))) with
          | OK [] | Err _ => True
          | OK (_ :: _) => False
          end) →
  (k < fuel)%nat →
  (fetch_loop fl gh fuel s tr).2 ≠ Halt OutOfFuel.
Proof.
  revert fuel s tr. induction k as [|k IH]; intros fuel s tr Hsrv Hlt;
    (destruct fuel as [|fuel]; [lia|]); simpl;
    (destruct (done s) eqn:Hd; [done|]);
    destruct (fetch_page fl gh s tr) as [tr1 [s1|h]] eqn:Hpage;
    try (rewrite (bind_Halt _ _ _ _ _ Hpage);
         apply fetch_page_halt in Hpage as [-> _]; done);
    rewrite (bind_Ret _ _ _ _ _ Hpage);
    apply fetch_page_spec in Hpage
      as (results & ? & ? & Hres & _ & _ & HP & _ & _ & _ & _ & _ & _ & Hdone).
  - specialize (Hsrv (tr ++ [fetching (opts_Page s + 1)])).
    change (Z.of_nat 1) with 1 in Hsrv. rewrite Hres in Hsrv.
    destruct results; [|done].
    destruct fuel; simpl; by rewrite Hdone.
  - apply IH; [|lia]. intros tr2. specialize (Hsrv tr2).
    by replace (opts_Page s1 + Z.of_nat (S k))
      with (opts_Page s + Z.of_nat (S (S k))) by lia.
Qed.

(** ** [byMerged] on merged pull requests *)

Lemma Less_Some a i j x y t u :
  a !! i = Some x → a !! j = Some y →
  MergedAt x = Some t → MergedAt y = Some u →
  Less a i j = Some (Before t u).
Proof. unfold Less. intros -> -> Ht Hu. simpl. by rewrite Ht, Hu. Qed.

Lemma Less_is_Some a i j :
  Forall is_merged a → (i < Len a)%nat → (j < Len a)%nat →
  is_Some (Less a i j).
Proof.
  intros Hm [x Hx]%lookup_lt_is_Some [y Hy]%lookup_lt_is_Some.
  destruct (Forall_lookup_1 _ _ _ _ Hm Hx) as [t Ht].
  destruct (Forall_lookup_1 _ _ _ _ Hm Hy) as [u Hu].
  rewrite (Less_Some _ _ _ _ _ _ _ Hx Hy Ht Hu). eauto.
Qed.

Lemma Swap_is_Some a i j :
  (i < Len a)%nat → (j < Len a)%nat → is_Some (Swap a i j).
Proof.
  intros [x Hx]%lookup_lt_is_Some [y Hy]%lookup_lt_is_Some.
  unfold Swap. rewrite Hx, Hy. simpl. eauto.
Qed.

Lemma Swap_Permutation a i j a' : Swap a i j = Some a' → a' ≡ₚ a.
Proof.
  unfold Swap. destruct (a !! i) as [x|] eqn:Hx; [|done].
  destruct (a !! j) as [y|] eqn:Hy; [|done]. simpl. intros [= <-].
  by apply Permutation_insert_swap.
Qed.

Lemma Swap_length a i j a' : Swap a i j = Some a' → Len a' = Len a.
Proof. intros H%Swap_Permutation. unfold Len. by rewrite H. Qed.

(** Whatever a sorting routine does, it hands back the same pull requests. *)
Lemma sort_run_Permutation p a a' : sort_run p a = Some a' → a' ≡ₚ a.
Proof.
  revert a. induction p as [|i j pt IHt pf IHf|i j p IH]; intros a; simpl.
  - by intros [= ->].
  - destruct (Less a i j) as [[]|]; simpl; auto. done.
  - destruct (Swap a i j) as [a1|] eqn:Hs; simpl; [|done].
    intros H%IH. rewrite H. by eapply Swap_Permutation.
Qed.

(** On merged pull requests a routine that stays in range never hits a nil
    [MergedAt]. *)
Lemma sort_run_is_Some p a :
  sort_in_range (Len a) p = true → Forall is_merged a →
  is_Some (sort_run p a).
Proof.
  revert a. induction p as [|i j pt IHt pf IHf|i j p IH]; intros a; simpl.
  - eauto.
  - intros [[[Hi%bool_decide_eq_true Hj%bool_decide_eq_true]%andb_true_iff
               Ht]%andb_true_iff Hf]%andb_true_iff Hm.
    destruct (Less_is_Some a i j Hm Hi Hj) as [b ->]. simpl.
    destruct b; auto.
  - intros [[Hi%bool_decide_eq_true Hj%bool_decide_eq_true]%andb_true_iff
              Hp]%andb_true_iff Hm.
    destruct (Swap_is_Some a i j Hi Hj) as [a1 Hs]. rewrite Hs. simpl.
    apply IH.
    + by rewrite (Swap_length _ _ _ _ Hs).
    + by rewrite (Swap_Permutation _ _ _ _ Hs).
Qed.

Global Instance merged_le_trans : Transitive merged_le.
Proof.
  intros p q r (t & u & Ht & Hu & ?) (u' & v & Hu' & Hv & ?).
  exists t, v. repeat split; auto. rewrite Hu in Hu'. injection Hu' as <-. lia.
Qed.

Lemma merged_le_refl pr : is_merged pr → merged_le pr pr.
Proof. intros [t Ht]. exists t, t. repeat split; auto. lia. Qed.

(** What [sort.IsSorted] says of merged pull requests: merge times never
    go down along the slice. *)
Lemma IsSorted_StronglySorted a :
  Forall is_merged a → IsSorted a → StronglySorted merged_le a.
Proof.
  intros Hm Hs. apply Sorted_StronglySorted; [apply _|].
  induction a as [|x a IH]; [constructor|].
  apply Forall_cons in Hm as [[t Ht] Hm].
  constructor.
  - apply IH; [done|]. intros i Hi. apply (Hs (S i)). simpl in *. lia.
  - destruct a as [|y a]; constructor.
    apply Forall_cons in Hm as [[u Hu] _].
    specialize (Hs O). simpl in Hs.
    rewrite (Less_Some (x :: y :: a) 1 0 y x u t) in Hs by done.
    exists t, u. repeat split; auto.
    assert (Some (Before u t) = Some false) as [= Hb] by (apply Hs; lia).
    unfold Before in Hb. lia.
Qed.

(** ** [insertionSort] meets the contract of [sort.Sort] *)

Lemma sift_in_range n j next :
  (j < n)%nat → sort_in_range n next = true →
  sort_in_range n (sift j next) = true.
Proof.
  intros Hj Hn. induction j as [|j IH]; simpl; [done|].
  rewrite !bool_decide_eq_true_2 by lia. simpl. rewrite Hn, IH by lia. done.
Qed.

Lemma insertion_loop_in_range n count i :
  (i + count ≤ n)%nat → sort_in_range n (insertion_loop count i) = true.
Proof.
  revert i. induction count as [|count IH]; intros i Hi; simpl; [done|].
  apply sift_in_range; [lia|]. apply IH. lia.
Qed.

Lemma insertionSort_in_range : alg_in_range insertionSort.
Proof.
  intros [|n]; [done|]. apply insertion_loop_in_range. lia.
Qed.

Lemma Swap_adjacent (L T : list PullRequest) x y :
  Swap (L ++ y :: x :: T) (S (length L)) (length L) = Some (L ++ x :: y :: T).
Proof.
  unfold Swap.
  rewrite (list_lookup_middle L (x :: T) y (length L)) by done.
  replace (L ++ y :: x :: T) with ((L ++ [y]) ++ x :: T) at 1
    by (by rewrite <- app_assoc).
  rewrite (list_lookup_middle (L ++ [y]) T x (S (length L)))
    by (rewrite length_app; simpl; lia).
  simpl. f_equal.
  replace (S (length L)) with (length L + 1)%nat by lia.
  rewrite insert_app_r. simpl.
  replace (length L) with (length L + 0)%nat at 1 by lia.
  by rewrite insert_app_r.
Qed.

(** The inner loop of [insertionSort] moves [x] down past the elements
    merged after it and stops at the first one that is not. *)
Lemma sift_run (L T : list PullRequest) x next :
  Forall is_merged (L ++ x :: T) →
  ∃ L1 L2,
    L = L1 ++ L2 ∧
    sort_run (sift (length L) next) (L ++ x :: T)
      = sort_run next (L1 ++ x :: L2 ++ T) ∧
    Forall (merged_le x) L2 ∧
    (∀ L0 y, L1 = L0 ++ [y] → merged_le y x).
Proof.
  revert T. induction L as [|y L IH] using rev_ind; intros T Hm.
  { exists [], []. repeat split; auto. by intros [|??] ? [=]. }
  rewrite <- app_assoc in Hm. simpl in Hm.
  assert (is_merged y ∧ is_merged x) as [[u Hu] [t Ht]].
  { apply Forall_app in Hm as [_ Hm]. apply Forall_cons in Hm as [? Hm].
    by apply Forall_cons in Hm as [? _]. }
  rewrite length_app, Nat.add_1_r, <- app_assoc. simpl.
  rewrite (Less_Some _ _ _ x y t u); [|
    replace (L ++ y :: x :: T) with ((L ++ [y]) ++ x :: T)
      by (by rewrite <- app_assoc);
    apply list_lookup_middle; rewrite length_app; simpl; lia |
    by apply list_lookup_middle | done | done].
  simpl. destruct (Before t u) eqn:Hb.
  - cbn [sort_run]. rewrite Swap_adjacent. simpl.
    destruct (IH (y :: T)) as (L1 & L2 & -> & Hrun & Hgt & Hle).
    { apply Forall_app in Hm as [HL Hm].
      apply Forall_cons in Hm as [? Hm]. apply Forall_cons in Hm as [? Hm].
      apply Forall_app. split; [done|]. by repeat constructor. }
    exists L1, (L2 ++ [y]). rewrite Hrun, <- !app_assoc. simpl.
    repeat split; auto.
    apply Forall_app. split; [done|]. constructor; [|constructor].
    exists t, u. unfold Before in Hb. repeat split; auto. lia.
  - exists (L ++ [y]), []. rewrite app_nil_r, <- app_assoc. simpl.
    repeat split; auto.
    intros L0 y' [_ [= <-]]%app_inj_tail.
    exists u, t. unfold Before in Hb. repeat split; auto. lia.
Qed.

Lemma insertion_loop_run (Q P a' : list PullRequest) :
  Forall is_merged (P ++ Q) → StronglySorted merged_le P →
  sort_run (insertion_loop (length Q) (length P)) (P ++ Q) = Some a' →
  StronglySorted merged_le a'.
Proof.
  revert P. induction Q as [|x Q IH]; intros P Hm HP; simpl.
  { rewrite app_nil_r. by intros [= <-]. }
  destruct (sift_run P Q x (insertion_loop (length Q) (S (length P))) Hm)
    as (L1 & L2 & -> & -> & Hgt & Hle).
  replace (L1 ++ x :: L2 ++ Q) with ((L1 ++ x :: L2) ++ Q)
    by (by rewrite <- app_assoc).
  replace (S (length (L1 ++ L2))) with (length (L1 ++ x :: L2))
    by (rewrite !length_app; simpl; lia).
  apply IH.
  - revert Hm. rewrite !Forall_app, !Forall_cons. tauto.
  - apply StronglySorted_app in HP as (H12 & H1 & H2).
    assert (is_merged x) as Hx.
    { apply Forall_app in Hm as [_ Hm]. by apply Forall_cons in Hm as [? _]. }
    apply StronglySorted_app. repeat split.
    + intros z w Hz [->|Hw]%elem_of_cons; [|by apply H12].
      destruct L1 as [|y L0 _] using rev_ind; [by apply elem_of_nil in Hz|].
      specialize (Hle L0 y eq_refl).
      apply elem_of_app in Hz as [Hz|Hz%list_elem_of_singleton]; [|by subst].
      apply StronglySorted_app in H1 as (H0 & _ & _).
      transitivity y; [|done]. apply H0; [done|]. by apply list_elem_of_singleton.
    + done.
    + by constructor.
Qed.

Lemma StronglySorted_IsSorted a : StronglySorted merged_le a → IsSorted a.
Proof.
  induction 1 as [|x a Ha IH Hx]; intros i Hi; simpl in *; [lia|].
  destruct i as [|i].
  - destruct a as [|y a]; simpl in *; [lia|].
    apply Forall_cons in Hx as [(t & u & Ht & Hu & ?) _].
    rewrite (Less_Some (x :: y :: a) 1 0 y x u t) by done.
    f_equal. unfold Before. lia.
  - specialize (IH i). unfold Less in *. simpl. apply IH. lia.
Qed.

Lemma insertionSort_sorts : alg_sorts insertionSort.
Proof.
  intros [|x Q] a' Hm; unfold insertionSort; simpl.
  - intros [= <-]. intros i Hi. simpl in Hi. lia.
  - rewrite Nat.sub_0_r. intros Hrun. apply StronglySorted_IsSorted.
    apply (insertion_loop_run Q [x]); [done| |done].
    repeat constructor.
Qed.

(** ** Writing the notes *)

Lemma append_String a (s t : string) : String a s +:+ t = String a (s +:+ t).
Proof. reflexivity. Qed.

Lemma append_assoc (s t u : string) : (s +:+ t) +:+ u = s +:+ t +:+ u.
Proof.
  induction s as [|a s IH]; [done|]. by rewrite !append_String, IH.
Qed.

Lemma append_nil_r (s : string) : s +:+ "" = s.
Proof. induction s as [|a s IH]; [done|]. by rewrite append_String, IH. Qed.

Lemma lines_app es1 es2 : lines (es1 ++ es2) = lines es1 +:+ lines es2.
Proof.
  induction es1 as [|pr es1 IH]; simpl; [done|].
  by rewrite IH, append_assoc.
Qed.

Lemma release_notes_pos labels :
  (0 < release_notes labels)%nat →
  ∃ label, label ∈ labels ∧ Name label = "release-note".
Proof.
  induction labels as [|label rest IH]; simpl; [lia|].
  destruct (String.eqb_spec (Name label) "release-note") as [E|_].
  - intros _. exists label. split; [constructor|done].
  - intros (l & ? & ?)%IH. exists l. split; [by constructor|done].
Qed.

(** Lines 154-158 write the line once for each label named
    [release-note]. *)
Lemma write_labelled_spec pr labels buffer :
  write_labelled pr labels buffer
  = buffer +:+ lines (replicate (release_notes labels) pr).
Proof.
  revert buffer. induction labels as [|label rest IH]; intros buffer; simpl.
  - by rewrite append_nil_r.
  - rewrite IH. destruct (String.eqb _ _); simpl; [|done].
    by rewrite append_assoc.
Qed.

Lemma in_window_eq s pr tr :
  in_window s pr tr =
  (tr, match lastVersionMerged s, MergedAt pr with
       | Some l, Some m =>
           if Before l m then
             match currentVersionMerged s with
             | Some c => Ret (Before m c)
             | None => Halt Panic
             end
           else Ret false
       | _, _ => Halt Panic
       end).
Proof.
  unfold in_window.
  destruct (lastVersionMerged s), (MergedAt pr); try done.
  destruct (Before _ _); [|done]. by destruct (currentVersionMerged s).
Qed.

Lemma in_window_true s pr tr tr' :
  in_window s pr tr = (tr', Ret true) → tr' = tr ∧ strictly_between s pr.
Proof.
  rewrite in_window_eq. unfold strictly_between, Before.
  destruct (lastVersionMerged s) as [l|], (MergedAt pr) as [m|]; try done.
  destruct (Z.ltb_spec l m); [|done].
  destruct (currentVersionMerged s) as [c|]; [|done].
  intros [= <- Hc]. split; [done|]. exists l, m, c.
  apply Z.ltb_lt in Hc. auto.
Qed.

(** One turn of the loop over the candidates that runs to its end wrote the
    line of its pull request some number of times; if it wrote it at all,
    the pull request is inside the window and, under the label filter, the
    server had named [release-note] among its labels. *)
Lemma write_note_Ret fl gh s pr buffer tr tr' buffer' :
  write_note fl gh s pr buffer tr = (tr', Ret buffer') →
  ∃ n ext,
    buffer' = buffer +:+ lines (replicate n pr) ∧
    tr' = tr ++ ext ∧
    ((0 < n)%nat →
     strictly_between s pr ∧
     (flag.relnoteFilter fl = true → labelled fl ext pr)).
Proof.
  unfold write_note.
  intros (tr1 & b & Hw & H)%bind_Ret_inv. destruct b.
  - apply in_window_true in Hw as [-> Hw].
    destruct (flag.relnoteFilter fl) eqn:Hf; simpl in H.
    + unfold Issues_ListLabelsByIssue in H. reduce_M H.
      destruct (srv_ListLabelsByIssue _ _ _ _ _) as [labels|e] eqn:Hsrv;
        [|done].
      injection H as <- <-.
      exists (release_notes labels), [EPrintf "." []; ELabels (flag.owner fl)
                (flag.repository fl) (Number pr) (OK labels);
                ESleep (5 * Second)].
      rewrite write_labelled_spec, <- !app_assoc. simpl.
      repeat split; auto.
      apply release_notes_pos in H as (label & ? & ?).
      exists labels, label. repeat split; auto.
      apply list_elem_of_further, list_elem_of_here.
    + injection H as <- <-. exists 1%nat, []. rewrite app_nil_r. simpl.
      rewrite append_nil_r. repeat split; auto. done.
  - rewrite in_window_eq in Hw. injection Hw as <- _. injection H as <- <-.
    exists O, []. rewrite app_nil_r. simpl. rewrite append_nil_r.
    repeat split; auto; lia.
Qed.

Lemma labelled_app_l fl tr ext pr : labelled fl tr pr → labelled fl (tr ++ ext) pr.
Proof.
  intros (labels & label & ? & ?). exists labels, label.
  split; [|done]. apply elem_of_app. by left.
Qed.

Lemma labelled_app_r fl tr ext pr : labelled fl ext pr → labelled fl (tr ++ ext) pr.
Proof.
  intros (labels & label & ? & ?). exists labels, label.
  split; [|done]. apply elem_of_app. by right.
Qed.

(** The loop over the candidates that runs to its end wrote lines of
    candidates only, in the order of the candidates, each of them inside the
    window and, under the label filter, labelled. *)
Lemma write_notes_Ret fl gh s l buffer tr tr' buffer' :
  write_notes fl gh s l buffer tr = (tr', Ret buffer') →
  ∃ es ext,
    buffer' = buffer +:+ lines es ∧
    tr' = tr ++ ext ∧
    expands l es ∧
    Forall (strictly_between s) es ∧
    (flag.relnoteFilter fl = true → Forall (labelled fl ext) es).
Proof.
  revert buffer tr. induction l as [|pr rest IH]; intros buffer tr; simpl.
  - intros [= <- <-]. exists [], []. rewrite app_nil_r, append_nil_r.
    repeat split; auto. constructor.
  - intros (tr1 & b1 & Hw & H)%bind_Ret_inv.
    apply write_note_Ret in Hw as (n & e1 & -> & -> & Hn).
    apply IH in H as (es & e2 & -> & -> & Hex & Hb & Hl).
    exists (replicate n pr ++ es), (e1 ++ e2).
    rewrite lines_app, append_assoc, app_assoc.
    repeat split; auto.
    + by constructor.
    + apply Forall_app. split; [|done]. destruct n; [constructor|].
      apply Forall_replicate. apply Hn. lia.
    + intros Hf. apply Forall_app. split.
      * destruct n; [constructor|]. apply Forall_replicate.
        apply labelled_app_l. apply Hn; [lia|done].
      * eapply Forall_impl; [by apply Hl|]. intros. by apply labelled_app_r.
Qed.

Lemma expands_elem_of l es x : expands l es → x ∈ es → x ∈ l.
Proof.
  induction 1 as [|pr n l es _ IH]; [done|].
  intros [[-> _]%elem_of_replicate|?]%elem_of_app; [constructor|].
  constructor. auto.
Qed.

Lemma expands_Forall P l es : expands l es → Forall P l → Forall P es.
Proof.
  intros He Hl. apply Forall_forall. intros x Hx.
  eapply Forall_forall; [exact Hl|]. by eapply expands_elem_of.
Qed.

(** Taking elements of a sorted list several times, in order, keeps it
    sorted. *)
Lemma expands_StronglySorted (R : relation PullRequest) l es :
  expands l es → (∀ x, x ∈ l → R x x) →
  StronglySorted R l → StronglySorted R es.
Proof.
  induction 1 as [|pr n l es He IH]; intros Hrefl Hs; [constructor|].
  apply StronglySorted_cons in Hs as [Hpr Hs].
  assert (StronglySorted R es) as Hes.
  { apply IH; [|done]. intros. apply Hrefl. by constructor. }
  assert (Forall (R pr) es) as Hpres by (by eapply expands_Forall).
  clear IH He. induction n as [|n IHn]; simpl; [done|].
  constructor; [done|]. apply Forall_app. split; [|done].
  apply Forall_replicate. apply Hrefl. constructor.
Qed.

(** ** When writing the notes dereferences nil *)

(** On a merged pull request one turn panics exactly when "last" was not
    recorded, or "current" was not recorded and the pull request was merged
    after "last". *)
Lemma write_note_Panic fl gh s pr buffer tr :
  is_merged pr →
  (write_note fl gh s pr buffer tr).2 = Halt Panic ↔
  lastVersionMerged s = None ∨
  (currentVersionMerged s = None ∧ merged_after_last s pr).
Proof.
  intros [m Hm]. unfold write_note, mbind, M_bind, merged_after_last.
  rewrite in_window_eq, Hm. unfold Before.
  destruct (lastVersionMerged s) as [l|]; [|by split; auto].
  destruct (Z.ltb_spec l m).
  - destruct (currentVersionMerged s) as [c|].
    + destruct (m <? c); simpl.
      * destruct (negb _); simpl; [by split; [|intros [|[]]]|].
        unfold Issues_ListLabelsByIssue.
        cbv beta iota zeta delta [mbind M_bind mret M_ret Printf Sleep emit os_Exit].
        destruct (srv_ListLabelsByIssue _ _ _ _ _); simpl;
          by split; [|intros [|[]]].
      * by split; [|intros [|[]]].
    + simpl. split; [|done]. intros _. right. split; [done|]. by exists l, m.
  - simpl. split; [done|]. intros [|[_ (l' & m' & [= <-] & [= <-] & ?)]]; [done|lia].
Qed.

(** A turn exits only after the label call failed, hence with both
    boundaries recorded. *)
Lemma write_note_Halt fl gh s pr buffer tr h :
  (write_note fl gh s pr buffer tr).2 = Halt h →
  h = Panic ∨
  (h = Exit 1 ∧ is_Some (lastVersionMerged s) ∧
   is_Some (currentVersionMerged s)).
Proof.
  unfold write_note, mbind, M_bind. rewrite in_window_eq.
  destruct (lastVersionMerged s) as [l|]; [|intros [= <-]; by left].
  destruct (MergedAt pr) as [m|]; [|intros [= <-]; by left].
  destruct (Before l m); [|done].
  destruct (currentVersionMerged s) as [c|]; [|intros [= <-]; by left].
  destruct (Before m c); [|done]. destruct (negb _); [done|].
  unfold Issues_ListLabelsByIssue.
  cbv beta iota zeta delta [mbind M_bind mret M_ret Printf Sleep emit os_Exit].
  destruct (srv_ListLabelsByIssue _ _ _ _ _); simpl; [done|].
  intros [= <-]. right. eauto.
Qed.

Lemma write_notes_Panic fl gh s l buffer tr :
  Forall is_merged l →
  (write_notes fl gh s l buffer tr).2 = Halt Panic ↔
  l ≠ [] ∧
  (lastVersionMerged s = None ∨
   (currentVersionMerged s = None ∧ Exists (merged_after_last s) l)).
Proof.
  revert buffer tr. induction l as [|pr rest IH]; intros buffer tr Hm; simpl.
  { split; [done|]. by intros [? _]. }
  apply Forall_cons in Hm as [Hpr Hm].
  pose proof (write_note_Panic fl gh s pr buffer tr Hpr) as HP.
  pose proof (write_note_Halt fl gh s pr buffer tr) as HH.
  unfold mbind, M_bind.
  destruct (write_note fl gh s pr buffer tr) as [tr1 [b1|h]]; simpl in *.
  - rewrite (IH b1 tr1 Hm). clear IH HH.
    assert (¬ (lastVersionMerged s = None ∨
               currentVersionMerged s = None ∧ merged_after_last s pr)) as Hn
      by (by rewrite <- HP).
    split.
    + intros [_ [?|[? ?]]]; (split; [done|]); [by left|].
      right. split; [done|]. by apply Exists_cons_tl.
    + intros [_ [?|[Hc [?|He]%Exists_cons]]]; [tauto|tauto|].
      split; [by destruct He|]. right. done.
  - destruct (HH h eq_refl) as [->|(-> & [l Hl] & [c Hc])].
    + split; [|done]. intros _. split; [done|].
      destruct HP as [HP _]. destruct (HP eq_refl) as [?|[? ?]]; [by left|].
      right. split; [done|]. by apply Exists_cons_hd.
    + split; [done|]. rewrite Hl, Hc. by intros [_ [|[]]].
Qed.

(** ** The three phases together *)

(** A run of [notes] that returns went through a fetch loop that ended, a
    sort that returned, and a loop over the candidates that ran to its
    end. *)
Lemma notes_Ret fl gh alg fuel tr0 tr s buffer :
  notes fl gh alg fuel tr0 = (tr, Ret (s, buffer)) →
  ∃ s0 tr1,
    fetch_loop fl gh fuel (initial fl) tr0 = (tr1, Ret s0) ∧
    sort_run (alg (Len (prs s0))) (prs s0) = Some (prs s) ∧
    s = set_prs s0 (prs s) ∧
    write_notes fl gh s (prs s) "" tr1 = (tr, Ret buffer).
Proof.
  unfold notes.
  intros (tr1 & s0 & Hloop & H)%bind_Ret_inv.
  apply bind_Ret_inv in H as (tr2 & sorted & Hsort & H).
  apply bind_Ret_inv in H as (tr3 & b & Hw & [= <- <- <-]).
  unfold sort_Sort in Hsort.
  destruct (sort_run _ _) as [a|] eqn:Hrun; [|done].
  injection Hsort as <- <-.
  exists s0, tr1. auto.
Qed.

Lemma fetch_loop_inv fl gh fuel tr0 tr s :
  fetch_loop fl gh fuel (initial fl) tr0 = (tr, Ret s) → scan_inv fl (s, tr).
Proof.
  intros (_ & n & Hn & _)%fetch_loop_nsteps.
  eapply scan_inv_nsteps; [exact Hn|apply scan_inv_init].
Qed.

(** What the notes consist of. *)
Lemma notes_emitted fl gh alg fuel tr0 tr s buffer :
  notes fl gh alg fuel tr0 = (tr, Ret (s, buffer)) →
  ∃ es,
    buffer = lines es ∧
    expands (prs s) es ∧
    Forall is_merged (prs s) ∧
    Forall (fetched tr) (prs s) ∧
    Forall (strictly_between s) es ∧
    (flag.relnoteFilter fl = true → Forall (labelled fl tr) es) ∧
    (alg_sorts alg → IsSorted (prs s)).
Proof.
  intros (s0 & tr1 & Hloop & Hsort & Hs & Hw)%notes_Ret.
  apply fetch_loop_inv in Hloop as (Hm & Hf & _). simpl in *.
  pose proof (sort_run_Permutation _ _ _ Hsort) as Hperm.
  apply write_notes_Ret in Hw as (es & ext & -> & -> & Hex & Hb & Hl).
  exists es. repeat split; auto.
  - by rewrite Hperm.
  - rewrite Hperm. eapply Forall_impl; [exact Hf|].
    intros. by apply fetched_app_l.
  - intros Hfl. eapply Forall_impl; [by apply Hl|].
    intros. by apply labelled_app_r.
  - intros Halg. by eapply Halg.
Qed.

(** ** The notes block and the release *)

Lemma publish_eq fl gh s buffer tr :
  publish fl gh s buffer tr =
  let tr1 := tr ++ notes_block fl s buffer in
  if String.eqb (flag.tagName fl) "" || String.eqb (flag.releaseName fl) ""
  then (tr1 ++ [EPrintf releaseUsage_text []], Halt (Exit 1))
  else
    let resp := srv_CreateRelease gh tr1 "zjj2wry" "console-web"
                  (release fl buffer) in
    let call := ECreateRelease "zjj2wry" "console-web" (release fl buffer)
                  resp in
    match resp with
    | Err e =>
        (tr1 ++ [call; EPrintf "Error auto release: %v" [AErr e]],
         Halt (Exit 1))
    | OK created =>
        match HTMLURL created with
        | Some url =>
            (tr1 ++ [call; EPrintln [AStr "realese url:"; AStr url]], Ret tt)
        | None => (tr1 ++ [call], Halt Panic)
        end
    end.
Proof.
  unfold publish, releaseUsage, Repositories_CreateRelease, notes_block.
  cbv beta iota zeta delta [mbind M_bind mret M_ret Printf Println emit].
  rewrite <- !app_assoc. simpl.
  destruct (_ || _); simpl.
  { unfold os_Exit. by rewrite <- !app_assoc. }
  destruct (srv_CreateRelease _ _ _ _ _) as [created|e]; simpl.
  - destruct (HTMLURL created); unfold panic; by rewrite <- !app_assoc.
  - unfold os_Exit. by rewrite <- !app_assoc.
Qed.

Lemma main_eq fl gh alg fuel tr :
  main fl gh alg fuel tr =
  if (flag.last fl =? 0) || String.eqb (flag.token fl) ""
  then (tr ++ [EPrintf usage_text []], Halt (Exit 1))
  else match notes fl gh alg fuel tr with
       | (tr1, Ret (s, buffer)) => publish fl gh s buffer tr1
       | (tr1, Halt h) => (tr1, Halt h)
       end.
Proof.
  unfold main. destruct (_ || _); [done|].
  unfold mbind, M_bind. by destruct (notes _ _ _ _ _) as [tr1 [[s b]|h]].
Qed.

(** ** Two properties of traces *)

Lemma paced_app t u : paced t → paced u → paced (t ++ u).
Proof. induction 1; simpl; auto using paced. Qed.

(** In a paced trace the sleep comes right after each call for labels. *)
Lemma paced_labels_inv pre o r n resp post :
  paced (pre ++ ELabels o r n resp :: post) →
  ∃ post', post = ESleep (5 * Second) :: post'.
Proof.
  intros Hp. remember (pre ++ ELabels o r n resp :: post) as t eqn:Ht.
  revert pre Ht.
  induction Hp as [|o' r' n' resp' tr' Hp IH|e tr' He Hp IH]; intros pre Ht.
  - by destruct pre.
  - destruct pre as [|e1 [|e2 pre]]; simplify_eq/=; eauto.
  - destruct pre as [|e1 pre]; simplify_eq/=; [|eauto].
    by destruct (He o r n resp).
Qed.

Lemma paced_singleton e :
  (∀ o r n resp, e ≠ ELabels o r n resp) → paced [e].
Proof. intros. apply paced_other; [done|constructor]. Qed.

Lemma emits_main_paced fl gh alg fuel : emits paced (main fl gh alg fuel).
Proof.
  apply emits_main; auto using paced_app, paced;
    intros; by apply paced_singleton.
Qed.

Lemma creates_app t u : creates (t ++ u) = creates t ++ creates u.
Proof. apply filter_app. Qed.

Lemma emits_notes_no_create fl gh alg fuel :
  emits (λ ext, creates ext = []) (notes fl gh alg fuel).
Proof.
  apply emits_notes; try done.
  intros t u Ht Hu. by rewrite creates_app, Ht, Hu.
Qed.

(** Before the release is created, no run has called for one. *)
Lemma notes_no_create fl gh alg fuel tr r :
  notes fl gh alg fuel [] = (tr, r) → creates tr = [].
Proof. by intros (ext & -> & ?)%emits_notes_no_create. Qed.

(** ** How a run ends *)

Lemma fetch_loop_Halt fl gh fuel s tr h :
  (fetch_loop fl gh fuel s tr).2 = Halt h → h = Exit 1 ∨ h = OutOfFuel.
Proof.
  revert s tr. induction fuel as [|fuel IH]; intros s tr; simpl;
    destruct (done s); try done.
  - intros [= <-]. by right.
  - unfold mbind, M_bind.
    destruct (fetch_page fl gh s tr) as [tr1 [s1|h1]] eqn:Hpage; [by apply IH|].
    apply fetch_page_halt in Hpage as [-> _]. intros [= <-]. by left.
Qed.

Lemma write_notes_Halt fl gh s l buffer tr h :
  (write_notes fl gh s l buffer tr).2 = Halt h → h = Panic ∨ h = Exit 1.
Proof.
  revert buffer tr. induction l as [|pr rest IH]; intros buffer tr; simpl;
    [done|].
  pose proof (write_note_Halt fl gh s pr buffer tr) as HH.
  unfold mbind, M_bind.
  destruct (write_note fl gh s pr buffer tr) as [tr1 [b1|h1]];
    [by apply IH|].
  simpl in *. intros [= <-]. destruct (HH h1 eq_refl) as [|[? _]]; auto.
Qed.

(** Only the fetch loop can use up the fuel. *)
Lemma notes_Halt fl gh alg fuel tr h :
  (notes fl gh alg fuel tr).2 = Halt h →
  h = Exit 1 ∨ h = Panic ∨
  (h = OutOfFuel ∧ (fetch_loop fl gh fuel (initial fl) tr).2 = Halt OutOfFuel).
Proof.
  unfold notes, mbind, M_bind.
  pose proof (fetch_loop_Halt fl gh fuel (initial fl) tr) as HL.
  destruct (fetch_loop fl gh fuel (initial fl) tr) as [tr1 [s0|h0]]; simpl in *.
  - clear HL. unfold sort_Sort.
    destruct (sort_run _ _) as [sorted|]; unfold mret, M_ret, panic;
      [|intros [= <-]; auto].
    pose proof (write_notes_Halt fl gh (set_prs s0 sorted)
                  (prs (set_prs s0 sorted)) "" tr1) as HW.
    destruct (write_notes _ _ _ _ _ _) as [tr2 [b|h2]]; [done|].
    simpl in *. intros [= <-]. destruct (HW h2 eq_refl); auto.
  - intros [= <-]. destruct (HL h0 eq_refl) as [->| ->]; auto.
Qed.

(** A run returns, exits with status 1 or panics, unless the fetch loop had
    too little fuel. *)
Lemma run_outcome fl gh alg fuel :
  (run fl gh alg fuel).2 = Ret tt ∨
  (run fl gh alg fuel).2 = Halt (Exit 1) ∨
  (run fl gh alg fuel).2 = Halt Panic ∨
  ((run fl gh alg fuel).2 = Halt OutOfFuel ∧
   (fetch_loop fl gh fuel (initial fl) []).2 = Halt OutOfFuel).
Proof.
  unfold run. rewrite main_eq. destruct (_ || _); [by auto|].
  pose proof (notes_Halt fl gh alg fuel []) as HN.
  destruct (notes fl gh alg fuel []) as [tr [[s buffer]|h]]; simpl in *.
  - rewrite publish_eq. cbv zeta. destruct (_ || _); [by auto|].
    destruct (srv_CreateRelease _ _ _ _ _) as [created|e]; [|by auto].
    destruct (HTMLURL created); auto.
  - destruct (HN h eq_refl) as [->|[->|[-> ?]]]; auto.
Qed.

(** A run ends when the server is sure to answer some page with the empty
    list or with an error. *)
Lemma run_ends fl gh alg (k fuel : nat) :
  (∀ tr1, match srv_List gh tr1 (flag.owner fl) (flag.repository fl)
                  (opts fl (Z.of_nat (S k))) with
          | OK [] | Err _ => True
          | OK (_ :: _) => False
          end) →
  (k < fuel)%nat →
  (run fl gh alg fuel).2 ≠ Halt OutOfFuel.
Proof.
  intros Hsrv Hk.
  destruct (run_outcome fl gh alg fuel) as [E|[E|[E|[_ E]]]];
    try (rewrite E; done).
  by apply (fetch_loop_ends fl gh k fuel (initial fl) []) in E.
Qed.

(** More fuel does not change a run that had enough. *)
Lemma notes_fuel fl gh alg fuel fuel' tr tr' r :
  notes fl gh alg fuel tr = (tr', r) → r ≠ Halt OutOfFuel →
  (fuel ≤ fuel')%nat → notes fl gh alg fuel' tr = (tr', r).
Proof.
  unfold notes. intros H Hr Hle.
  apply bind_inv in H as [(tr1 & s0 & Hloop & H)|(h & Hloop & ->)].
  - by rewrite (bind_Ret _ _ _ _ _
                  (fetch_loop_fuel _ _ _ _ _ _ _ _ Hloop ltac:(done) Hle)).
  - assert (Halt h ≠ @Halt locals OutOfFuel) as Hr' by congruence.
    by rewrite (bind_Halt _ _ _ _ _
                  (fetch_loop_fuel _ _ _ _ _ _ _ _ Hloop Hr' Hle)).
Qed.

Lemma run_fuel fl gh alg fuel fuel' tr r :
  run fl gh alg fuel = (tr, r) → r ≠ Halt OutOfFuel →
  (fuel ≤ fuel')%nat → run fl gh alg fuel' = (tr, r).
Proof.
  unfold run. rewrite !main_eq. destruct (_ || _); [done|].
  intros H Hr Hle.
  destruct (notes fl gh alg fuel []) as [tr1 [[s buffer]|h]] eqn:Hnotes.
  - by rewrite (notes_fuel _ _ _ _ _ _ _ _ Hnotes ltac:(done) Hle).
  - injection H as <- <-.
    assert (Halt h ≠ @Halt (locals * string) OutOfFuel) as Hr' by congruence.
    by rewrite (notes_fuel _ _ _ _ _ _ _ _ Hnotes Hr' Hle).
Qed.

(** ** The window *)

(** C1.  Whatever pull requests the server sends, the notes hold lines of
    fetched pull requests only, each of them with a merge time that lies
    strictly after the recorded merge time of "last" and strictly before
    the recorded merge time of "current".  The recorded times are merge
    times of fetched pull requests: of one with the number [last], and of
    one with the number [current] (or with the number 0, if the server
    sent that number on a page scanned while [current] was unset). *)
Theorem notes_in_window fl gh alg fuel tr0 tr s buffer :
  notes fl gh alg fuel tr0 = (tr, Ret (s, buffer)) →
  (∃ es,
     buffer = lines es ∧
     expands (prs s) es ∧
     Forall (λ pr, fetched tr pr ∧ is_merged pr ∧ strictly_between s pr) es) ∧
  (∀ l, lastVersionMerged s = Some l →
        ∃ pr, fetched tr pr ∧ Number pr = flag.last fl ∧
              MergedAt pr = Some l) ∧
  (∀ c, currentVersionMerged s = Some c →
        ∃ pr, fetched tr pr ∧ (Number pr = current s ∨ Number pr = 0) ∧
              MergedAt pr = Some c).
Proof.
  intros Hnotes. split.
  - apply notes_emitted in Hnotes as (es & -> & Hex & Hm & Hf & Hb & _).
    exists es. split; [done|]. split; [done|].
    apply Forall_forall. intros pr Hpr.
    pose proof (expands_elem_of _ _ _ Hex Hpr) as Hin.
    repeat split.
    + by eapply Forall_forall in Hf.
    + by eapply Forall_forall in Hm.
    + by eapply Forall_forall in Hb.
  - apply notes_Ret in Hnotes as (s0 & tr1 & Hloop & _ & -> & Hw).
    apply fetch_loop_inv in Hloop as (_ & _ & Hl & Hc).
    apply write_notes_Ret in Hw as (_ & ext & _ & -> & _). simpl in *.
    split.
    + intros l (pr & ? & ? & ?)%Hl. exists pr. auto using fetched_app_l.
    + intros c (pr & ? & ? & ?)%Hc. exists pr. auto using fetched_app_l.
Qed.

(** The example of the specification: with #10 as "last" and #20 as
    "current", of the pull requests merged before #10, between the two and
    after #20 only the one in the middle is in the notes. *)
Lemma notes_in_window_witness :
  ∃ tr s,
    notes (sample.flags 10 20 false "" "")
          (sample.server [sample.page1] [] (Err "")) insertionSort 2 []
      = (tr, Ret (s, note_line (sample.pr 15 (Some 150) 150))) ∧
    lastVersionMerged s = Some 100 ∧
    currentVersionMerged s = Some 200 ∧
    ∃ es,
      note_line (sample.pr 15 (Some 150) 150) = lines es ∧
      expands (prs s) es ∧
      Forall (λ pr, fetched tr pr ∧ is_merged pr ∧ strictly_between s pr) es.
Proof.
  eexists _, _. split; [by vm_compute|]. split; [done|]. split; [done|].
  eapply (notes_in_window (sample.flags 10 20 false "" "")
            (sample.server [sample.page1] [] (Err "")) insertionSort 2 []).
  by vm_compute.
Defined.

(** ** The order of the notes *)

(** C2.  When [sort.Sort] keeps its promise, the candidates are in
    non-decreasing order of merge time before the notes are written, and so
    are the lines of the notes. *)
Theorem notes_sorted fl gh alg fuel tr0 tr s buffer :
  alg_sorts alg →
  notes fl gh alg fuel tr0 = (tr, Ret (s, buffer)) →
  StronglySorted merged_le (prs s) ∧
  ∃ es,
    buffer = lines es ∧ expands (prs s) es ∧ StronglySorted merged_le es.
Proof.
  intros Halg (es & -> & Hex & Hm & _ & _ & _ & Hs)%notes_emitted.
  assert (StronglySorted merged_le (prs s)) as Hss
    by (apply IsSorted_StronglySorted; auto).
  split; [done|]. exists es. repeat split; auto.
  eapply expands_StronglySorted; [done| |done].
  intros x Hx. apply merged_le_refl. by eapply Forall_forall in Hm.
Qed.

Lemma notes_sorted_witness :
  ∃ tr s buffer,
    notes (sample.flags 3 0 false "" "")
          (sample.server [sample.page1] [] (Err "")) insertionSort 2 []
      = (tr, Ret (s, buffer)) ∧
    (Number <$> prs s) = [5; 10; 15; 20; 30] ∧
    StronglySorted merged_le (prs s) ∧
    ∃ es,
      buffer = lines es ∧ expands (prs s) es ∧ StronglySorted merged_le es.
Proof.
  eexists _, _, _. split; [by vm_compute|]. split; [done|].
  eapply (notes_sorted (sample.flags 3 0 false "" "")
            (sample.server [sample.page1] [] (Err "")) insertionSort 2 []).
  - exact insertionSort_sorts.
  - by vm_compute.
Defined.

(** ** The label filter *)

(** C7.  Under the label filter every line of the notes is the line of a
    pull request inside the window for which the server, asked for its
    labels, named [release-note]; and in every run, however it ends, the
    event after each call for labels, whatever its answer, is a sleep of
    five seconds. *)
Theorem label_filter fl gh alg fuel tr r :
  run fl gh alg fuel = (tr, r) →
  (∀ pre o rp n resp post,
     tr = pre ++ ELabels o rp n resp :: post →
     ∃ post', post = ESleep (5 * Second) :: post') ∧
  (flag.relnoteFilter fl = true →
   ∀ tr0 tr1 s buffer,
     notes fl gh alg fuel tr0 = (tr1, Ret (s, buffer)) →
     ∃ es,
       buffer = lines es ∧
       Forall (λ pr, strictly_between s pr ∧ labelled fl tr1 pr) es).
Proof.
  intros Hrun. split.
  - apply emits_main_paced in Hrun as (ext & -> & Hp).
    intros pre o rp n resp post E. simpl in E. subst ext.
    by eapply paced_labels_inv.
  - intros Hf tr0 tr1 s buffer
      (es & -> & _ & _ & _ & Hb & Hl & _)%notes_emitted.
    exists es. split; [done|]. apply Forall_forall. intros pr Hpr. split.
    + by eapply Forall_forall in Hb.
    + specialize (Hl Hf). by eapply Forall_forall in Hl.
Qed.

(** #15 is in the window; the server is asked for its labels once, and the
    sleep follows. *)
Lemma label_filter_witness :
  let fl := sample.flags 10 20 true "" "" in
  let gh := sample.server [sample.page1] [sample.bug; sample.release_note]
              (Err "") in
  ∃ pre post,
    run fl gh insertionSort 2 =
      (pre ++ ELabels "caicloud" "console-web" 15
                (OK [sample.bug; sample.release_note]) :: post,
       Halt (Exit 1)) ∧
    ∃ post', post = ESleep (5 * Second) :: post'.
Proof.
  intros fl gh.
  exists (take 8 (run fl gh insertionSort 2).1),
         (drop 9 (run fl gh insertionSort 2).1).
  split; [by vm_compute|].
  refine (proj1 (label_filter fl gh insertionSort 2
                   (run fl gh insertionSort 2).1 (Halt (Exit 1)) _)
            (take 8 (run fl gh insertionSort 2).1)
            "caicloud" "console-web" 15
            (OK [sample.bug; sample.release_note])
            (drop 9 (run fl gh insertionSort 2).1) _);
    by vm_compute.
Defined.

(** ** The candidates *)

(** C9.  After every turn of the fetch loop every candidate has a merge
    time: a pull request closed without a merge is skipped before anything
    else is looked at.  Hence [Less] never meets a nil [MergedAt], however
    the candidates are arranged, and a sorting routine that stays in range
    returns. *)
Theorem candidates_merged fl gh tr0 n s tr :
  nsteps (fetch_step fl gh) n (initial fl, tr0) (s, tr) →
  Forall is_merged (prs s) ∧
  (∀ result c,
     MergedAt result = None →
     scan_result fl result s c tr =
       (tr, Ret (s, {| merged := merged c; unmerged := unmerged c + 1 |},
                 Continue))) ∧
  (∀ a i j, a ≡ₚ prs s → (i < Len a)%nat → (j < Len a)%nat →
            is_Some (Less a i j)) ∧
  (∀ alg, alg_in_range alg →
          ∃ sorted, sort_Sort alg (prs s) tr = (tr, Ret sorted) ∧
                    sorted ≡ₚ prs s).
Proof.
  intros Hn.
  assert (Forall is_merged (prs s)) as Hm.
  { by destruct (scan_inv_nsteps _ _ _ _ _ Hn (scan_inv_init fl tr0)). }
  split; [done|]. split; [|split].
  - intros result c Hr. unfold scan_result. by rewrite Hr.
  - intros a i j Ha. apply Less_is_Some. by rewrite Ha.
  - intros alg Halg. unfold sort_Sort.
    destruct (sort_run_is_Some (alg (Len (prs s))) (prs s) (Halg _) Hm)
      as [sorted Hs].
    rewrite Hs. exists sorted. split; [done|].
    by eapply sort_run_Permutation.
Qed.

(** The state the fetch loop ends in is one of those. *)
Lemma fetch_loop_reaches fl gh fuel tr0 s tr :
  fetch_loop fl gh fuel (initial fl) tr0 = (tr, Ret s) →
  ∃ n, nsteps (fetch_step fl gh) (S n) (initial fl, tr0) (s, tr).
Proof.
  intros (_ & [|n] & Hn & Hpos)%fetch_loop_nsteps; [|by exists n].
  specialize (Hpos eq_refl). lia.
Qed.

Lemma candidates_merged_witness :
  ∃ s tr,
    fetch_step (sample.flags 10 20 false "" "")
      (sample.server [sample.page1] [] (Err ""))
      (initial (sample.flags 10 20 false "" ""), []) (s, tr) ∧
    (Number <$> prs s) = [30; 20; 15; 5] ∧
    Forall is_merged (prs s).
Proof.
  eexists _, _. split; [|split]; cycle 2.
  - eapply (candidates_merged (sample.flags 10 20 false "" "")
              (sample.server [sample.page1] [] (Err "")) [] 1).
    apply nsteps_once. split; [done|]. by vm_compute.
  - split; [done|]. by vm_compute.
  - done.
Defined.

(** ** The default of [current] *)

Lemma fetch_step_current fl gh x y :
  fetch_step fl gh x y → current x.1 ≠ 0 → current y.1 = current x.1.
Proof.
  destruct x as [s tr], y as [s' tr']. simpl.
  intros [_ Hpage] H. simpl in Hpage.
  apply fetch_page_spec in Hpage as (? & ? & ? & _ & _ & _ & _ & -> & _).
  by destruct (Z.eqb_spec (current s) 0).
Qed.

Lemma nsteps_current fl gh n x y :
  nsteps (fetch_step fl gh) n x y → current x.1 ≠ 0 →
  current y.1 = current x.1.
Proof.
  induction 1 as [|n x y z Hstep _ IH]; [done|]. intros Hx.
  pose proof (fetch_step_current _ _ _ _ Hstep Hx) as E.
  rewrite <- E. apply IH. congruence.
Qed.

(** C6.  With [--current] unset, the first turn of the fetch loop sets
    [current] to the number of the first pull request of the first page,
    merged or not, and no later turn changes it.  (GitHub numbers pull
    requests from 1.) *)
Theorem current_default fl gh tr0 first rest :
  flag.current fl = 0 →
  Number first ≠ 0 →
  srv_List gh (tr0 ++ [fetching 1]) (flag.owner fl) (flag.repository fl)
    (opts fl 1) = OK (first :: rest) →
  (∃ s1 tr1, fetch_step fl gh (initial fl, tr0) (s1, tr1)) ∧
  (∀ n s tr, nsteps (fetch_step fl gh) (S n) (initial fl, tr0) (s, tr) →
             current s = Number first) ∧
  (∀ fuel s tr, fetch_loop fl gh fuel (initial fl) tr0 = (tr, Ret s) →
                current s = Number first).
Proof.
  intros Hcur Hnum Hsrv.
  assert (Hfirst : ∀ s1 tr1, fetch_step fl gh (initial fl, tr0) (s1, tr1) →
                             current s1 = Number first).
  { intros s1 tr1 [_ Hpage]. simpl in Hpage.
    apply fetch_page_spec in Hpage
      as (results & ? & ? & Hres & _ & _ & _ & -> & _).
    change (opts_Page (initial fl) + 1) with 1 in Hres.
    rewrite Hsrv in Hres. injection Hres as <-.
    simpl. by rewrite Hcur. }
  assert (Hall : ∀ n s tr,
            nsteps (fetch_step fl gh) (S n) (initial fl, tr0) (s, tr) →
            current s = Number first).
  { intros n s tr Hn. inversion Hn as [|? ? [s1 tr1] ? Hstep Hrest]; subst.
    apply Hfirst in Hstep.
    apply nsteps_current in Hrest; simpl in *; congruence. }
  split; [|split; [done|]].
  - destruct (fetch_page fl gh (initial fl) tr0) as [tr1 [s1|h]] eqn:Hpage.
    + exists s1, tr1. by split.
    + apply fetch_page_halt in Hpage as (_ & e & He).
      change (opts_Page (initial fl) + 1) with 1 in He. congruence.
  - intros fuel s tr [n Hn]%fetch_loop_reaches. eauto.
Qed.

(** The first pull request of the page, #14, was closed without a merge. *)
Lemma current_default_witness :
  ∃ tr s,
    fetch_loop (sample.flags 10 0 false "" "")
      (sample.server [sample.pr 14 None 140 :: sample.page1] [] (Err ""))
      2 (initial (sample.flags 10 0 false "" "")) [] = (tr, Ret s) ∧
    current s = 14.
Proof.
  eexists _, _. split; [by vm_compute|].
  refine (proj2 (proj2 (current_default (sample.flags 10 0 false "" "")
    (sample.server [sample.pr 14 None 140 :: sample.page1] [] (Err ""))
    [] (sample.pr 14 None 140) sample.page1 _ _ _)) 2%nat _ _ _);
    by vm_compute.
Defined.

(** ** What the scan accumulates *)

(** C5, as the program has it.  One pass over a pull request never fails.
    It appends the pull request to the candidates exactly when it is
    merged, is not "last" and is not past "last"; and when such a pull
    request has the number [current], its merge time is recorded as the
    upper boundary as well: the "current" pull request is a candidate
    too. *)
Theorem current_accumulated fl result s c tr :
  ∃ s' c' f ext,
    scan_result fl result s c tr = (tr ++ ext, Ret (s', c', f)) ∧
    prs s' = (if accumulated fl s result then prs s ++ [result] else prs s) ∧
    currentVersionMerged s' =
      (if accumulated fl s result && (Number result =? current s)
       then MergedAt result else currentVersionMerged s).
Proof.
  destruct (scan_result_spec fl result s c tr)
    as (s' & c' & f & ext & H & _ & _ & Hprs & _ & Hcur & _).
  exists s', c', f, ext. auto.
Qed.

(** C5 as the specification words it does not hold: the scan meets #20, which is merged
    and is [current]; it records its merge time and appends it to the
    candidates. *)
Lemma current_not_accumulated_fails :
  let fl := sample.flags 10 20 false "" "" in
  let result := sample.pr 20 (Some 200) 200 in
  ∃ s',
    scan_result fl result (initial fl) {| merged := 0; unmerged := 0 |} []
      = ([EPrintf (" ... found current PR %d." +:+ nl) [AInt 20]],
         Ret (s', {| merged := 1; unmerged := 0 |}, Continue)) ∧
    is_merged result ∧
    Number result = current (initial fl) ∧
    currentVersionMerged s' = MergedAt result ∧
    prs s' = [result].
Proof.
  eexists. split; [by vm_compute|]. repeat split. by exists 200.
Qed.

(** ** The boundaries *)

(** C4, as the program has it.  With candidates on the slice, writing the
    notes dereferences nil exactly when the merge time of "last" was not
    recorded, or the merge time of "current" was not recorded and some
    candidate was merged after "last": the right operand of [&&] is
    evaluated for those candidates only.  With both merge times recorded it
    never does. *)
Theorem boundary_dereference fl gh alg fuel tr0 tr1 s sorted :
  fetch_loop fl gh fuel (initial fl) tr0 = (tr1, Ret s) →
  sort_run (alg (Len (prs s))) (prs s) = Some sorted →
  let outcome := (write_notes fl gh (set_prs s sorted) sorted "" tr1).2 in
  (outcome = Halt Panic ↔
   prs s ≠ [] ∧
   (lastVersionMerged s = None ∨
    (currentVersionMerged s = None ∧
     ∃ pr, pr ∈ prs s ∧ merged_after_last s pr))) ∧
  (is_Some (lastVersionMerged s) → is_Some (currentVersionMerged s) →
   outcome ≠ Halt Panic) ∧
  (prs s ≠ [] → lastVersionMerged s = None → outcome = Halt Panic).
Proof.
  intros Hloop Hsort outcome.
  assert (outcome = Halt Panic ↔
          prs s ≠ [] ∧
          (lastVersionMerged s = None ∨
           (currentVersionMerged s = None ∧
            ∃ pr, pr ∈ prs s ∧ merged_after_last s pr))) as Hiff.
  { apply fetch_loop_inv in Hloop as (Hm & _). simpl in Hm.
    pose proof (sort_run_Permutation _ _ _ Hsort) as Hperm.
    unfold outcome. rewrite write_notes_Panic by (by rewrite Hperm). simpl.
    assert (sorted ≠ [] ↔ prs s ≠ []) as ->.
    { split; intros H E; apply H.
      - rewrite E in Hperm. by apply Permutation_nil_r in Hperm.
      - rewrite E in Hperm. by apply Permutation_nil_r. }
    assert (Exists (merged_after_last (set_prs s sorted)) sorted ↔
            ∃ pr, pr ∈ prs s ∧ merged_after_last s pr) as ->; [|done].
    rewrite Exists_exists.
    split; intros (pr & Hin & Ha); exists pr; (split; [|exact Ha]).
    - by rewrite <- Hperm.
    - by rewrite Hperm. }
  split; [done|]. split.
  - intros [l Hl] [c Hc]. rewrite Hiff, Hl, Hc. by intros [_ [|[]]].
  - intros ? ?. apply Hiff. auto.
Qed.

(** No pull request has the number of "last": with candidates on the slice
    the first dereference fails. *)
Lemma boundary_dereference_witness :
  ∃ tr1 s sorted,
    fetch_loop (sample.flags 7 20 false "" "")
      (sample.server [sample.page1] [] (Err "")) 2
      (initial (sample.flags 7 20 false "" "")) [] = (tr1, Ret s) ∧
    sort_run (insertionSort (Len (prs s))) (prs s) = Some sorted ∧
    lastVersionMerged s = None ∧
    (write_notes (sample.flags 7 20 false "" "")
       (sample.server [sample.page1] [] (Err ""))
       (set_prs s sorted) sorted "" tr1).2 = Halt Panic.
Proof.
  eexists _, _, _. split; [by vm_compute|]. split; [by vm_compute|].
  split; [done|].
  refine (proj2 (proj2 (boundary_dereference (sample.flags 7 20 false "" "")
            (sample.server [sample.page1] [] (Err "")) insertionSort 2 []
            _ _ _ _ _)) _ _); by vm_compute.
Defined.

(** C4 as the specification words it does not hold: #14, the "current" pull request, was
    closed without a merge, so its merge time is never recorded; #5, merged
    before #10, is a candidate; yet the notes are written without a nil
    dereference, and they are empty. *)
Lemma safe_iff_both_boundaries_fails :
  let fl := sample.flags 10 14 false "" "" in
  let gh := sample.server
              [[sample.pr 14 None 140; sample.pr 5 (Some 50) 120;
                sample.pr 10 (Some 100) 100]] [] (Err "") in
  ∃ tr s,
    notes fl gh insertionSort 2 [] = (tr, Ret (s, "")) ∧
    prs s = [sample.pr 5 (Some 50) 120] ∧
    lastVersionMerged s = Some 100 ∧
    currentVersionMerged s = None.
Proof. eexists _, _. split; [by vm_compute|]. done. Qed.

(** ** One line for each label *)

(** C10.  Under the label filter the line of a pull request inside the
    window is written once for each label named [release-note] in the
    answer of the server, not once for the pull request: with two such
    labels the line is there twice. *)
Theorem line_per_label fl gh s pr buffer tr labels :
  flag.relnoteFilter fl = true →
  strictly_between s pr →
  srv_ListLabelsByIssue gh (tr ++ [EPrintf "." []]) (flag.owner fl)
    (flag.repository fl) (Number pr) = OK labels →
  write_note fl gh s pr buffer tr =
    (tr ++ [EPrintf "." [];
            ELabels (flag.owner fl) (flag.repository fl) (Number pr)
              (OK labels);
            ESleep (5 * Second)],
     Ret (buffer +:+ lines (replicate (release_notes labels) pr))).
Proof.
  intros Hf (l & m & c & Hl & Hm & Hc & ? & ?) Hsrv.
  unfold write_note, mbind, M_bind.
  rewrite in_window_eq, Hl, Hm, Hc, Hf. unfold Before.
  rewrite !(proj2 (Z.ltb_lt _ _)) by done. simpl.
  unfold Issues_ListLabelsByIssue.
  cbv beta iota zeta delta [mbind M_bind mret M_ret Printf Sleep emit].
  rewrite Hsrv, write_labelled_spec, <- !app_assoc. done.
Qed.

(** #15 carries the label [release-note] twice: its line is in the notes
    twice. *)
Lemma line_per_label_witness :
  let fl := sample.flags 10 20 true "" "" in
  let gh := sample.server [sample.page1]
              [sample.release_note; sample.release_note] (Err "") in
  let pr := sample.pr 15 (Some 150) 150 in
  ∃ tr s,
    notes fl gh insertionSort 2 [] = (tr, Ret (s, lines [pr; pr])) ∧
    ∃ tr',
      write_note fl gh s pr "" [] = (tr', Ret ("" +:+ lines [pr; pr])).
Proof.
  intros fl gh pr. eexists _, _. split; [by vm_compute|]. eexists.
  apply (line_per_label fl gh _ pr "" []
           [sample.release_note; sample.release_note]).
  - done.
  - exists 100, 150, 200. repeat split; done.
  - done.
Defined.

(** ** The release *)

Lemma creates_cons e t :
  creates (e :: t) = if is_create e then e :: creates t else creates t.
Proof.
  unfold creates. rewrite filter_cons.
  destruct (is_create e); by case_decide.
Qed.

Lemma main_publish fl gh alg fuel tr s buffer :
  flag.last fl ≠ 0 → flag.token fl ≠ "" →
  notes fl gh alg fuel [] = (tr, Ret (s, buffer)) →
  run fl gh alg fuel = publish fl gh s buffer tr.
Proof.
  intros Hlast Htoken Hnotes. unfold run. rewrite main_eq, Hnotes.
  destruct (Z.eqb_spec (flag.last fl) 0); [done|].
  by destruct (String.eqb_spec (flag.token fl) "").
Qed.

(** C3.  A run that comes to the end of the notes with a tag name and a
    release name calls for the creation of a release once, on
    [zjj2wry/console-web] whatever [--owner] and [--repository] say, with
    the notes as the body; when the server answers with the release, its
    URL is printed and [main] returns; when it answers with an error, the
    process exits with status 1. *)
Theorem release_created fl gh alg fuel tr s buffer :
  flag.last fl ≠ 0 → flag.token fl ≠ "" →
  flag.tagName fl ≠ "" → flag.releaseName fl ≠ "" →
  notes fl gh alg fuel [] = (tr, Ret (s, buffer)) →
  let tr1 := tr ++ notes_block fl s buffer in
  let resp := srv_CreateRelease gh tr1 "zjj2wry" "console-web"
                (release fl buffer) in
  let call := ECreateRelease "zjj2wry" "console-web" (release fl buffer)
                resp in
  ∃ rest r,
    run fl gh alg fuel = (tr1 ++ call :: rest, r) ∧
    creates (tr1 ++ call :: rest) = [call] ∧
    match resp with
    | OK created =>
        ∀ url, HTMLURL created = Some url →
               rest = [EPrintln [AStr "realese url:"; AStr url]] ∧ r = Ret tt
    | Err e =>
        rest = [EPrintf "Error auto release: %v" [AErr e]] ∧
        r = Halt (Exit 1)
    end.
Proof.
  intros Hlast Htoken Htag Hname Hnotes.
  rewrite (main_publish _ _ _ _ _ _ _ Hlast Htoken Hnotes), publish_eq.
  destruct (String.eqb_spec (flag.tagName fl) ""); [done|].
  destruct (String.eqb_spec (flag.releaseName fl) ""); [done|].
  cbv zeta. simpl orb. cbv iota.
  set (tr1 := tr ++ notes_block fl s buffer).
  assert (Hcr : ∀ call rest, is_create call = true → creates rest = [] →
                             creates (tr1 ++ call :: rest) = [call]).
  { intros call rest Hcall Hrest. unfold tr1.
    rewrite !creates_app, (notes_no_create _ _ _ _ _ _ Hnotes).
    by rewrite creates_cons, Hcall, Hrest. }
  destruct (srv_CreateRelease gh tr1 _ _ _) as [created|e] eqn:Hresp.
  - destruct (HTMLURL created) as [url|] eqn:Hurl.
    + eexists _, _. split; [done|]. split; [by apply Hcr|].
      by intros ? [= <-].
    + exists [], (Halt Panic). split; [done|]. split; [by apply Hcr|done].
  - eexists _, _. split; [done|]. split; [by apply Hcr|done].
Qed.

Lemma release_created_witness :
  let fl := sample.flags 10 20 false "1.0" "v1.0" in
  let gh := sample.server [sample.page1] []
              (OK (sample.created "https://github.com/r/1")) in
  let call := ECreateRelease "zjj2wry" "console-web"
                (release fl (note_line (sample.pr 15 (Some 150) 150)))
                (OK (sample.created "https://github.com/r/1")) in
  ∃ tr s,
    notes fl gh insertionSort 2 [] =
      (tr, Ret (s, note_line (sample.pr 15 (Some 150) 150))) ∧
    ∃ rest r,
      run fl gh insertionSort 2 =
        ((tr ++ notes_block fl s (note_line (sample.pr 15 (Some 150) 150)))
         ++ call :: rest, r) ∧
      creates ((tr ++ notes_block fl s
                        (note_line (sample.pr 15 (Some 150) 150)))
               ++ call :: rest) = [call] ∧
      ∀ url, Some "https://github.com/r/1" = Some url →
             rest = [EPrintln [AStr "realese url:"; AStr url]] ∧ r = Ret tt.
Proof.
  intros fl gh call. eexists _, _. split; [by vm_compute|].
  apply (release_created fl gh insertionSort 2); try done.
Defined.

(** C8.  A run with an empty tag name or an empty release name never calls
    for the creation of a release and never ends with status 0; when it
    comes to the end of the notes it prints the notes block whole, then the
    usage of the release flags, and exits with status 1. *)
Theorem release_skipped fl gh alg fuel :
  flag.tagName fl = "" ∨ flag.releaseName fl = "" →
  creates (run fl gh alg fuel).1 = [] ∧
  (run fl gh alg fuel).2 ≠ Ret tt ∧
  (∀ tr s buffer,
     flag.last fl ≠ 0 → flag.token fl ≠ "" →
     notes fl gh alg fuel [] = (tr, Ret (s, buffer)) →
     run fl gh alg fuel =
       (tr ++ notes_block fl s buffer ++ [EPrintf releaseUsage_text []],
        Halt (Exit 1))).
Proof.
  intros Hempty.
  assert (String.eqb (flag.tagName fl) "" ||
          String.eqb (flag.releaseName fl) "" = true) as Hskip.
  { destruct Hempty as [-> | ->]; [reflexivity|apply orb_true_r]. }
  assert (Hpub : ∀ tr s buffer,
            publish fl gh s buffer tr =
              (tr ++ notes_block fl s buffer ++ [EPrintf releaseUsage_text []],
               Halt (Exit 1))).
  { intros. rewrite publish_eq. cbv zeta. rewrite Hskip.
    by rewrite <- app_assoc. }
  split; [|split].
  - unfold run. rewrite main_eq.
    destruct ((flag.last fl =? 0) || _); [reflexivity|].
    destruct (notes fl gh alg fuel []) as [tr [[s buffer]|h]] eqn:Hnotes.
    + rewrite Hpub. simpl.
      by rewrite creates_app, (notes_no_create _ _ _ _ _ _ Hnotes).
    + simpl. by eapply notes_no_create.
  - unfold run. rewrite main_eq.
    destruct ((flag.last fl =? 0) || _); [done|].
    destruct (notes fl gh alg fuel []) as [tr [[s buffer]|h]]; [|done].
    by rewrite Hpub.
  - intros tr s buffer Hlast Htoken Hnotes.
    by rewrite (main_publish _ _ _ _ _ _ _ Hlast Htoken Hnotes).
Qed.

Lemma release_skipped_witness :
  let fl := sample.flags 10 20 false "1.0" "" in
  let gh := sample.server [sample.page1] []
              (OK (sample.created "https://github.com/r/1")) in
  ∃ tr s,
    notes fl gh insertionSort 2 [] =
      (tr, Ret (s, note_line (sample.pr 15 (Some 150) 150))) ∧
    run fl gh insertionSort 2 =
      (tr ++ notes_block fl s (note_line (sample.pr 15 (Some 150) 150))
          ++ [EPrintf releaseUsage_text []],
       Halt (Exit 1)).
Proof.
  intros fl gh. eexists _, _. split; [by vm_compute|].
  apply (release_skipped fl gh insertionSort 2); try done. by left.
Defined.

(** * Further properties *)

(** ** A turn of the fetch loop, case by case *)

Lemma fetch_page_eq fl gh s tr :
  let page := opts_Page s + 1 in
  let s0 := set_Page s page in
  let resp := srv_List gh (tr ++ [fetching page]) (flag.owner fl)
                (flag.repository fl) (opts fl page) in
  let tr1 := tr ++ [fetching page;
                    EList (flag.owner fl) (flag.repository fl)
                      (opts fl page) resp] in
  fetch_page fl gh s tr =
  match resp with
  | Err e => (tr1 ++ [contact_error e], Halt (Exit 1))
  | OK [] => (tr1, Ret (set_done s0 true))
  | OK (first :: rest) =>
      let s1 := if current s =? 0 then set_current s0 (Number first)
                else s0 in
      let tr2 := if current s =? 0
                 then tr1 ++ [EPrintln [AInt (Number first)]] else tr1 in
      match scan_results fl (first :: rest) s1
              {| merged := 0; unmerged := 0 |} tr2 with
      | (tr3, Ret (s2, c)) =>
          (tr3 ++ [page_counts (merged c) (unmerged c)], Ret s2)
      | (tr3, Halt h) => (tr3, Halt h)
      end
  end.
Proof.
  unfold fetch_page, PullRequests_List, fetching, contact_error, page_counts.
  cbv beta iota zeta delta [mbind M_bind mret M_ret Printf Println emit
                            os_Exit].
  change (opts_Page (set_Page s (opts_Page s + 1))) with (opts_Page s + 1).
  change (current (set_Page s (opts_Page s + 1))) with (current s).
  rewrite <- !app_assoc. cbn [app].
  destruct (srv_List _ _ _ _ _) as [[|first rest]|e]; try done.
  destruct (current s =? 0); rewrite <- ?app_assoc; cbn [app];
    destruct (scan_results _ _ _ _ _) as [tr3 [[s2 c]|h]]; done.
Qed.

Lemma scan_results_prints fl results s c tr tr' r :
  scan_results fl results s c tr = (tr', r) →
  ∃ ext, tr' = tr ++ ext ∧ Forall (λ e, is_print e = true) ext.
Proof.
  apply (emits_scan_results (λ ext, Forall (λ e, is_print e = true) ext));
    auto using Forall_app_2.
Qed.

(** What a turn appends to the trace: the line that announces the page, the
    call, and then output only. *)
Lemma fetch_page_trace fl gh s tr :
  let page := opts_Page s + 1 in
  let resp := srv_List gh (tr ++ [fetching page]) (flag.owner fl)
                (flag.repository fl) (opts fl page) in
  ∃ ext r,
    fetch_page fl gh s tr =
      (tr ++ fetching page ::
             EList (flag.owner fl) (flag.repository fl) (opts fl page) resp ::
             ext, r) ∧
    Forall (λ e, is_print e = true) ext ∧
    match resp with
    | Err e => ext = [contact_error e] ∧ r = Halt (Exit 1)
    | OK _ => ∃ s', r = Ret s' ∧ opts_Page s' = page
    end.
Proof.
  intros page resp. rewrite fetch_page_eq. fold page. fold resp.
  cbv zeta. destruct resp as [[|first rest]|e] eqn:Hresp.
  - exists [], (Ret (set_done (set_Page s page) true)).
    repeat split; eauto.
  - set (s1 := if current s =? 0 then _ else _).
    set (tr2 := if current s =? 0 then _ else _).
    destruct (scan_results_spec fl (first :: rest) s1
                {| merged := 0; unmerged := 0 |} tr2)
      as (s2 & c2 & e3 & added & Hscan & HP & _).
    pose proof (scan_results_prints _ _ _ _ _ _ _ Hscan) as (e3' & E & Hpr).
    apply app_inv_head in E. subst e3'. rewrite Hscan.
    exists ((if current s =? 0 then [EPrintln [AInt (Number first)]] else [])
            ++ e3 ++ [page_counts (merged c2) (unmerged c2)]), (Ret s2).
    split; [|split].
    + unfold tr2. destruct (current s =? 0); by rewrite <- !app_assoc.
    + apply Forall_app. split; [by destruct (current s =? 0); repeat constructor|].
      apply Forall_app. split; [done|]. by repeat constructor.
    + exists s2. split; [done|]. rewrite HP. unfold s1.
      by destruct (current s =? 0).
  - exists [contact_error e], (Halt (Exit 1)).
    rewrite <- app_assoc. repeat split; auto.
Qed.

(** ** A run, phase by phase *)

Lemma run_phases fl gh alg fuel :
  flag.last fl ≠ 0 → flag.token fl ≠ "" →
  ∃ tr1 rf,
    fetch_loop fl gh fuel (initial fl) [] = (tr1, rf) ∧
    match rf with
    | Halt h => run fl gh alg fuel = (tr1, Halt h)
    | Ret s0 =>
        match sort_run (alg (Len (prs s0))) (prs s0) with
        | None => run fl gh alg fuel = (tr1, Halt Panic)
        | Some sorted =>
            ∃ tr2 rw,
              write_notes fl gh (set_prs s0 sorted) sorted "" tr1 = (tr2, rw) ∧
              match rw with
              | Halt h => run fl gh alg fuel = (tr2, Halt h)
              | Ret buffer =>
                  notes fl gh alg fuel [] =
                    (tr2, Ret (set_prs s0 sorted, buffer)) ∧
                  run fl gh alg fuel =
                    publish fl gh (set_prs s0 sorted) buffer tr2
              end
        end
    end.
Proof.
  intros Hlast Htoken. unfold run. rewrite main_eq.
  destruct (Z.eqb_spec (flag.last fl) 0); [done|].
  destruct (String.eqb_spec (flag.token fl) ""); [done|]. simpl.
  unfold notes, mbind, M_bind.
  destruct (fetch_loop fl gh fuel (initial fl) []) as [tr1 [s0|h]];
    exists tr1; eexists; (split; [done|]); [|done].
  unfold sort_Sort. destruct (sort_run _ _) as [sorted|]; [|done].
  unfold mret, M_ret. simpl.
  destruct (write_notes _ _ _ _ _ _) as [tr2 [buffer|h]];
    exists tr2; eexists; (split; [done|]); done.
Qed.

(** ** The calls for pages *)

Lemma list_calls_app t u : list_calls (t ++ u) = list_calls t ++ list_calls u.
Proof.
  induction t as [|e t IH]; [done|]. destruct e; simpl; by rewrite ?IH.
Qed.

Lemma list_calls_prints t :
  Forall (λ e, is_print e = true) t → list_calls t = [].
Proof. induction 1 as [|e t He _ IH]; [done|]. by destruct e. Qed.

Lemma fetch_loop_list_calls fl gh fuel s tr tr' r :
  fetch_loop fl gh fuel s tr = (tr', r) →
  ∃ ext n,
    tr' = tr ++ ext ∧ (n ≤ fuel)%nat ∧
    list_calls ext =
      (λ i : nat, (flag.owner fl, flag.repository fl,
                   opts fl (opts_Page s + Z.of_nat i))) <$> seq 1 n.
Proof.
  revert s tr. induction fuel as [|fuel IH]; intros s tr; simpl;
    destruct (done s).
  1-3: intros [= <- <-]; exists [], O; rewrite app_nil_r; auto with lia.
  destruct (fetch_page_trace fl gh s tr) as (ext1 & r1 & Hpage & Hpr & Hr).
  unfold mbind, M_bind. rewrite Hpage.
  set (call := EList _ _ _ _) in *.
  assert (Hblock : list_calls (fetching (opts_Page s + 1) :: call :: ext1) =
                   [(flag.owner fl, flag.repository fl,
                     opts fl (opts_Page s + Z.of_nat 1))]).
  { simpl. by rewrite (list_calls_prints _ Hpr). }
  destruct r1 as [s1|h].
  - intros (ext2 & n & -> & Hn & Hcalls)%IH.
    exists (fetching (opts_Page s + 1) :: call :: ext1 ++ ext2), (S n).
    split; [by rewrite <- app_assoc|]. split; [lia|].
    change (fetching (opts_Page s + 1) :: call :: ext1 ++ ext2)
      with ((fetching (opts_Page s + 1) :: call :: ext1) ++ ext2).
    rewrite list_calls_app, Hblock, Hcalls.
    destruct (srv_List _ _ _ _ _); [|by destruct Hr].
    destruct Hr as (s' & [= <-] & HP).
    change (seq 1 (S n)) with (1%nat :: seq 2 n).
    rewrite <- (fmap_S_seq 1 n), fmap_cons, <- list_fmap_compose.
    simpl. f_equal.
    apply list_fmap_ext. intros _ i _. simpl.
    do 2 f_equal. rewrite HP. lia.
  - intros [= <- <-]. eexists _, 1%nat.
    split; [done|]. split; [lia|]. by rewrite Hblock.
Qed.

Lemma no_list_calls_after fl gh s l buffer tr tr' r :
  write_notes fl gh s l buffer tr = (tr', r) →
  ∃ ext, tr' = tr ++ ext ∧ list_calls ext = [].
Proof.
  apply (emits_write_notes (λ ext, list_calls ext = [])); try done.
  intros t u Ht Hu. by rewrite list_calls_app, Ht, Hu.
Qed.

Lemma no_list_calls_publish fl gh s buffer tr tr' r :
  publish fl gh s buffer tr = (tr', r) →
  ∃ ext, tr' = tr ++ ext ∧ list_calls ext = [].
Proof.
  apply (emits_publish (λ ext, list_calls ext = [])); try done.
  intros t u Ht Hu. by rewrite list_calls_app, Ht, Hu.
Qed.

(** The calls for pages of a whole run are those of its fetch loop. *)
Lemma run_list_calls fl gh alg fuel :
  ∃ n, (n ≤ fuel)%nat ∧
       list_calls (run fl gh alg fuel).1 = list_call fl <$> seq 1 n.
Proof.
  destruct (decide (flag.last fl = 0)) as [Hg|Hlast].
  { exists O. split; [lia|]. unfold run. by rewrite main_eq, Hg. }
  destruct (decide (flag.token fl = "")) as [Hg|Htoken].
  { exists O. split; [lia|]. unfold run.
    by rewrite main_eq, Hg, orb_true_r. }
  destruct (run_phases fl gh alg fuel Hlast Htoken) as (tr1 & rf & Hloop & H).
  apply fetch_loop_list_calls in Hloop as (ext & n & -> & Hn & Hcalls).
  exists n. split; [done|]. simpl in *.
  destruct rf as [s0|h]; [|by rewrite H].
  destruct (sort_run _ _) as [sorted|]; [|by rewrite H].
  destruct H as (tr2 & rw & Hw & H).
  apply no_list_calls_after in Hw as (e2 & -> & Hc2).
  destruct rw as [buffer|h].
  - destruct H as [_ ->].
    destruct (publish _ _ _ _ _) as [tr3 r3] eqn:Hp.
    apply no_list_calls_publish in Hp as (e3 & -> & Hc3). simpl.
    by rewrite !list_calls_app, Hc2, Hc3, !app_nil_r.
  - rewrite H. simpl. by rewrite list_calls_app, Hc2, app_nil_r.
Qed.

(** X2.  The pages of a run are asked for in order, 1, 2, 3 and so on, each
    once, each from the repository of [--owner] and [--repository], closed
    pull requests against [--base], the most recently updated first, a
    hundred to a page. *)
Theorem pages_in_order fl gh alg fuel :
  ∃ n, (n ≤ fuel)%nat ∧
       list_calls (run fl gh alg fuel).1 =
         (λ i : nat,
            (flag.owner fl, flag.repository fl,
             {| State := "closed"; Base := flag.base fl; Sort := "updated";
                Direction := "desc";
                PRListOptions := {| Page := Z.of_nat i; PerPage := 100 |} |}))
         <$> seq 1 n.
Proof. apply run_list_calls. Qed.

(** X1.  Without [--last] or without [--token] a run prints the usage and
    exits with status 1, and that is all it does: no call reaches the
    server.  With both, and a turn of fuel, it starts by asking for
    page 1. *)
Theorem usage_exit fl gh alg fuel :
  (flag.last fl = 0 ∨ flag.token fl = "" →
   run fl gh alg fuel = ([EPrintf usage_text []], Halt (Exit 1))) ∧
  (flag.last fl ≠ 0 → flag.token fl ≠ "" →
   ∃ resp rest r,
     run fl gh alg (S fuel) =
       (fetching 1 ::
        EList (flag.owner fl) (flag.repository fl) (opts fl 1) resp :: rest,
        r)).
Proof.
  split.
  - intros Hg. unfold run. rewrite main_eq.
    destruct Hg as [-> | ->]; [done|]. by rewrite orb_true_r.
  - intros Hlast Htoken.
    destruct (run_phases fl gh alg (S fuel) Hlast Htoken)
      as (tr1 & rf & Hloop & H).
    assert (∃ resp ext, tr1 = fetching 1 :: EList (flag.owner fl)
              (flag.repository fl) (opts fl 1) resp :: ext)
      as (resp & ext & ->).
    { simpl in Hloop.
      destruct (fetch_page_trace fl gh (initial fl) [])
        as (ext1 & r1 & Hpage & _).
      unfold mbind, M_bind in Hloop. rewrite Hpage in Hloop.
      destruct r1 as [s1|h].
      - pose proof (emits_fetch_loop (λ _, True) I (λ _ _ _ _, I)
                      (λ _ _, I) (λ _, I) (λ _ _ _ _, I) _ _ _ _ _ _ _ Hloop)
          as (e2 & -> & _).
        eauto.
      - injection Hloop as <- _. eauto. }
    destruct rf as [s0|h]; [|rewrite H; by eexists _, _, _].
    destruct (sort_run _ _) as [sorted|]; [|rewrite H; by eexists _, _, _].
    destruct H as (tr2 & rw & Hw & H).
    apply no_list_calls_after in Hw as (e2 & -> & _).
    destruct rw as [buffer|h].
    + destruct H as [_ ->].
      destruct (publish _ _ _ _ _) as [tr3 r3] eqn:Hp.
      apply no_list_calls_publish in Hp as (e3 & -> & _).
      exists resp, (ext ++ e2 ++ e3), r3. by rewrite <- !app_assoc.
    + rewrite H. by eexists _, _, _.
Qed.

Lemma usage_exit_witness :
  run (sample.flags 0 20 false "1.0" "v1.0")
      (sample.server [sample.page1] [] (Err "")) insertionSort 5
  = ([EPrintf usage_text []], Halt (Exit 1)).
Proof.
  apply (usage_exit (sample.flags 0 20 false "1.0" "v1.0")
           (sample.server [sample.page1] [] (Err "")) insertionSort 5).
  by left.
Defined.

(** ** Failed calls *)

Lemma not_print_elem_of e t :
  is_print e = false → Forall (λ e, is_print e = true) t → e ∉ t.
Proof.
  intros He Ht Hin. rewrite Forall_forall in Ht. apply Ht in Hin. congruence.
Qed.

Lemma app_nil_inv (t ext : trace) : t = t ++ ext → ext = [].
Proof. intros H. apply (app_inv_head t). by rewrite app_nil_r. Qed.

(** A page that comes back as an error ends the fetch loop on the spot. *)
Lemma fetch_loop_failure fl gh fuel s tr tr' r o rp op e :
  fetch_loop fl gh fuel s tr = (tr', r) →
  ∀ ext, tr' = tr ++ ext →
  EList o rp op (Err e) ∈ ext →
  r = Halt (Exit 1) ∧
  ∃ pre, ext = pre ++ [EList o rp op (Err e); contact_error e].
Proof.
  revert s tr tr' r. induction fuel as [|fuel IH]; intros s tr tr' r; simpl;
    destruct (done s).
  1-3: intros [= <- <-] ext ->%app_nil_inv Hin;
       by apply elem_of_nil in Hin.
  destruct (fetch_page_trace fl gh s tr) as (ext1 & r1 & Hpage & Hpr & Hr).
  unfold mbind, M_bind. rewrite Hpage.
  set (call := EList (flag.owner fl) _ _ _) in *.
  destruct r1 as [s1|h].
  - intros Hloop ext -> Hin.
    pose proof (emits_fetch_loop (λ _, True) I (λ _ _ _ _, I)
                  (λ _ _, I) (λ _, I) (λ _ _ _ _, I) _ _ _ _ _ _ _ Hloop)
      as (e2 & E & _).
    rewrite E in Hloop.
    assert (ext = (fetching (opts_Page s + 1) :: call :: ext1) ++ e2) as ->.
    { apply (app_inv_head tr). by rewrite E, <- app_assoc. }
    apply elem_of_app in Hin as [Hin|Hin].
    + exfalso. apply elem_of_cons in Hin as [Hin|Hin]; [done|].
      apply elem_of_cons in Hin as [Hin|Hin].
      * unfold call in Hin. destruct (srv_List _ _ _ _ _); [done|].
        by destruct Hr.
      * by apply (not_print_elem_of (EList o rp op (Err e)) _ eq_refl Hpr)
          in Hin.
    + destruct (IH _ _ _ _ Hloop e2 eq_refl Hin) as (-> & pre & ->).
      split; [done|].
      exists ((fetching (opts_Page s + 1) :: call :: ext1) ++ pre).
      by rewrite <- app_assoc.
  - intros [= <- <-] ext <-%app_inv_head Hin.
    destruct (srv_List _ _ _ _ _) as [results|e'] eqn:Hsrv;
      [by destruct Hr as (? & ? & _)|].
    destruct Hr as [-> ->]. split; [done|].
    apply elem_of_cons in Hin as [Hin|Hin]; [done|].
    apply elem_of_cons in Hin as [Hin|Hin].
    + unfold call in *. injection Hin as -> -> -> ->.
      by exists [fetching (opts_Page s + 1)].
    + apply list_elem_of_singleton in Hin. done.
Qed.

(** What one turn of the loop over the candidates appends to the trace:
    nothing, or under the label filter a dot, the call for the labels and
    the sleep, and the error when the call failed. *)
Lemma write_note_trace fl gh s pr buffer tr :
  ∃ ext r,
    write_note fl gh s pr buffer tr = (tr ++ ext, r) ∧
    ((ext = [] ∧ ∀ h, r = Halt h → h = Panic) ∨
     (flag.relnoteFilter fl = true ∧
      ∃ resp,
        ext = EPrintf "." [] ::
              ELabels (flag.owner fl) (flag.repository fl) (Number pr) resp ::
              ESleep (5 * Second) ::
              match resp with Err e => [contact_error e] | OK _ => [] end ∧
        match resp with
        | Err e => r = Halt (Exit 1)
        | OK _ => ∃ b, r = Ret b
        end)).
Proof.
  unfold write_note, mbind, M_bind. rewrite in_window_eq.
  assert (Hnil : ∀ r : result string, (∀ h, r = Halt h → h = Panic) →
            ∃ ext r', (tr, r) = (tr ++ ext, r') ∧
              ((ext = [] ∧ ∀ h, r' = Halt h → h = Panic) ∨
               (flag.relnoteFilter fl = true ∧
                ∃ resp,
                  ext = EPrintf "." [] ::
                        ELabels (flag.owner fl) (flag.repository fl)
                          (Number pr) resp ::
                        ESleep (5 * Second) ::
                        match resp with
                        | Err e => [contact_error e] | OK _ => [] end ∧
                  match resp with
                  | Err e => r' = Halt (Exit 1)
                  | OK _ => ∃ b, r' = Ret b
                  end))).
  { intros r Hr. exists [], r. rewrite app_nil_r. auto. }
  destruct (lastVersionMerged s) as [l|]; [|by apply Hnil; intros ? [= <-]].
  destruct (MergedAt pr) as [m|]; [|by apply Hnil; intros ? [= <-]].
  destruct (Before l m); [|by apply Hnil].
  destruct (currentVersionMerged s) as [c|]; [|by apply Hnil; intros ? [= <-]].
  destruct (Before m c); [|by apply Hnil].
  destruct (flag.relnoteFilter fl) eqn:Hf; simpl; [|by apply Hnil].
  unfold Issues_ListLabelsByIssue, contact_error.
  cbv beta iota zeta delta [mbind M_bind mret M_ret Printf Sleep emit os_Exit].
  destruct (srv_ListLabelsByIssue _ _ _ _ _) as [labels|e];
    eexists _, _; (split; [by rewrite <- !app_assoc|]); right;
    (split; [done|]); [exists (OK labels)|exists (Err e)]; eauto.
Qed.

(** Without the label filter the loop over the candidates is silent. *)
Lemma write_notes_silent fl gh s l buffer tr tr' r :
  flag.relnoteFilter fl = false →
  write_notes fl gh s l buffer tr = (tr', r) → tr' = tr.
Proof.
  intros Hf. revert buffer tr. induction l as [|pr rest IH];
    intros buffer tr; simpl; [by intros [= <- _]|].
  destruct (write_note_trace fl gh s pr buffer tr)
    as (ext & r1 & Hw & [[-> _]|[Hf' _]]); [|congruence].
  rewrite app_nil_r in Hw. unfold mbind, M_bind. rewrite Hw.
  destruct r1; [by apply IH|]. by intros [= <- _].
Qed.

(** A call for labels that comes back as an error ends the loop over the
    candidates after the sleep. *)
Lemma write_notes_failure fl gh s l buffer tr tr' r o rp n e :
  write_notes fl gh s l buffer tr = (tr', r) →
  ∀ ext, tr' = tr ++ ext →
  ELabels o rp n (Err e) ∈ ext →
  r = Halt (Exit 1) ∧
  ∃ pre, ext = pre ++ [ELabels o rp n (Err e); ESleep (5 * Second);
                       contact_error e].
Proof.
  revert buffer tr tr' r. induction l as [|pr rest IH];
    intros buffer tr tr' r; simpl.
  { intros [= <- <-] ext ->%app_nil_inv Hin. by apply elem_of_nil in Hin. }
  destruct (write_note_trace fl gh s pr buffer tr) as (ext1 & r1 & Hw & Hcase).
  unfold mbind, M_bind. rewrite Hw.
  destruct r1 as [b1|h].
  - intros Hloop ext -> Hin.
    pose proof (emits_write_notes (λ _, True) I (λ _ _ _ _, I)
                  (λ _ _, I) (λ _ _ _ _, I) _ _ _ _ _ _ _ _ Hloop)
      as (e2 & E & _).
    rewrite E in Hloop.
    assert (ext = ext1 ++ e2) as ->.
    { apply (app_inv_head tr). by rewrite E, <- app_assoc. }
    apply elem_of_app in Hin as [Hin|Hin].
    + exfalso. destruct Hcase as [[-> _]|(_ & resp & -> & Hr)];
        [by apply elem_of_nil in Hin|].
      destruct resp as [labels|e']; [|done].
      apply elem_of_cons in Hin as [Hin|Hin]; [done|].
      apply elem_of_cons in Hin as [Hin|Hin]; [done|].
      apply elem_of_cons in Hin as [Hin|Hin]; [done|].
      by apply elem_of_nil in Hin.
    + destruct (IH _ _ _ _ Hloop e2 eq_refl Hin) as (-> & pre & ->).
      split; [done|]. exists (ext1 ++ pre). by rewrite <- app_assoc.
  - intros [= <- <-] ext <-%app_inv_head Hin.
    destruct Hcase as [[-> _]|(_ & resp & -> & Hr)];
      [by apply elem_of_nil in Hin|].
    destruct resp as [labels|e']; [by destruct Hr|].
    apply elem_of_cons in Hin as [Hin|Hin]; [done|].
    apply elem_of_cons in Hin as [Hin|Hin].
    + injection Hin as -> -> -> ->. split; [|by exists [EPrintf "." []]].
      by injection Hr.
    + apply elem_of_cons in Hin as [Hin|Hin]; [done|].
      by apply list_elem_of_singleton in Hin.
Qed.

Lemma list_calls_nil_not_elem t o rp op resp :
  list_calls t = [] → EList o rp op resp ∉ t.
Proof.
  intros Ht Hin. induction t as [|e t IH]; [by apply elem_of_nil in Hin|].
  apply elem_of_cons in Hin as [<-|Hin]; [done|].
  destruct e; simpl in Ht; try done; auto.
Qed.

Lemma fetch_loop_no_labels fl gh fuel s tr tr' r :
  fetch_loop fl gh fuel s tr = (tr', r) →
  ∃ ext, tr' = tr ++ ext ∧
         Forall (λ e, is_label_or_sleep e = false) ext ∧ creates ext = [].
Proof.
  apply (emits_fetch_loop
           (λ ext, Forall (λ e, is_label_or_sleep e = false) ext ∧
                   creates ext = [])); try (by repeat constructor).
  intros t u [? Ht] [? Hu]. split; [by apply Forall_app|].
  by rewrite creates_app, Ht, Hu.
Qed.

Lemma publish_no_labels fl gh s buffer tr tr' r :
  publish fl gh s buffer tr = (tr', r) →
  ∃ ext, tr' = tr ++ ext ∧ Forall (λ e, is_label_or_sleep e = false) ext.
Proof.
  apply (emits_publish (λ ext, Forall (λ e, is_label_or_sleep e = false) ext));
    try (by repeat constructor).
  intros t u ? ?. by apply Forall_app.
Qed.

(** X3.  When a call for a page fails, the run prints the error and exits
    with status 1 at once: the failed call and the error are the last two
    events, and no release was asked for. *)
Theorem fetch_error_final fl gh alg fuel tr r o rp op e :
  run fl gh alg fuel = (tr, r) →
  EList o rp op (Err e) ∈ tr →
  r = Halt (Exit 1) ∧
  (∃ pre, tr = pre ++ [EList o rp op (Err e); contact_error e]) ∧
  creates tr = [].
Proof.
  intros Hrun Hin.
  destruct (decide (flag.last fl = 0)) as [Hg|Hlast].
  { unfold run in Hrun. rewrite main_eq, Hg in Hrun. injection Hrun as <- _.
    by apply list_elem_of_singleton in Hin. }
  destruct (decide (flag.token fl = "")) as [Hg|Htoken].
  { unfold run in Hrun. rewrite main_eq, Hg, orb_true_r in Hrun.
    injection Hrun as <- _. by apply list_elem_of_singleton in Hin. }
  destruct (run_phases fl gh alg fuel Hlast Htoken) as (tr1 & rf & Hloop & H).
  pose proof (fetch_loop_failure _ _ _ _ _ _ _ o rp op e Hloop tr1 eq_refl)
    as Hfail.
  pose proof (fetch_loop_no_labels _ _ _ _ _ _ _ Hloop) as (? & E & _ & Hcr).
  simpl in E. subst x.
  destruct rf as [s0|h].
  - exfalso.
    assert (EList o rp op (Err e) ∈ tr1) as Hin1; [|by destruct (Hfail Hin1)].
    destruct (sort_run _ _) as [sorted|];
      [|rewrite H in Hrun; by injection Hrun as <- _].
    destruct H as (tr2 & rw & Hw & H).
    apply no_list_calls_after in Hw as (e2 & -> & Hc2).
    assert (∃ e3, tr = (tr1 ++ e2) ++ e3 ∧ list_calls e3 = [])
      as (e3 & -> & Hc3).
    { destruct rw as [buffer|h].
      - destruct H as [_ H]. rewrite H in Hrun.
        by apply no_list_calls_publish in Hrun.
      - rewrite H in Hrun. injection Hrun as <- _. exists [].
        by rewrite app_nil_r. }
    apply elem_of_app in Hin as [[Hin|Hin]%elem_of_app|Hin]; [done| |].
    + by apply list_calls_nil_not_elem in Hin.
    + by apply list_calls_nil_not_elem in Hin.
  - rewrite H in Hrun. injection Hrun as <- <-.
    destruct (Hfail Hin) as [[= ->] Hpre]. auto.
Qed.

Lemma fetch_error_final_witness :
  let fl := sample.flags 10 20 false "1.0" "v1.0" in
  let gh := {| srv_List := λ _ _ _ op,
                 if Page (PRListOptions op) =? 1
                 then OK [sample.pr 30 (Some 300) 300]
                 else Err "502 Bad Gateway";
               srv_ListLabelsByIssue := λ _ _ _ _, OK [];
               srv_CreateRelease := λ _ _ _ _, Err "" |} in
  ∃ tr,
    run fl gh insertionSort 5 = (tr, Halt (Exit 1)) ∧
    ∃ pre, tr = pre ++ [EList "caicloud" "console-web" (opts fl 2)
                          (Err "502 Bad Gateway");
                        contact_error "502 Bad Gateway"].
Proof.
  intros fl gh. eexists. split; [by vm_compute|].
  eapply (fetch_error_final fl gh insertionSort 5 _ (Halt (Exit 1))).
  - by vm_compute.
  - repeat first [apply list_elem_of_here | apply list_elem_of_further].
Defined.

(** X4.  When a call for labels fails, the run sleeps its five seconds,
    prints the error and exits with status 1: the failed call, the sleep
    and the error are the last three events, and no release was asked
    for. *)
Theorem label_error_final fl gh alg fuel tr r o rp n e :
  run fl gh alg fuel = (tr, r) →
  ELabels o rp n (Err e) ∈ tr →
  r = Halt (Exit 1) ∧
  (∃ pre, tr = pre ++ [ELabels o rp n (Err e); ESleep (5 * Second);
                       contact_error e]) ∧
  creates tr = [].
Proof.
  intros Hrun Hin.
  destruct (decide (flag.last fl = 0)) as [Hg|Hlast].
  { unfold run in Hrun. rewrite main_eq, Hg in Hrun. injection Hrun as <- _.
    by apply list_elem_of_singleton in Hin. }
  destruct (decide (flag.token fl = "")) as [Hg|Htoken].
  { unfold run in Hrun. rewrite main_eq, Hg, orb_true_r in Hrun.
    injection Hrun as <- _. by apply list_elem_of_singleton in Hin. }
  assert (Hnot : ∀ t, Forall (λ e, is_label_or_sleep e = false) t →
                      ELabels o rp n (Err e) ∉ t).
  { intros t Ht Hin'. rewrite Forall_forall in Ht. by apply Ht in Hin'. }
  destruct (run_phases fl gh alg fuel Hlast Htoken) as (tr1 & rf & Hloop & H).
  pose proof (fetch_loop_no_labels _ _ _ _ _ _ _ Hloop) as (? & E & Hnl & Hcr).
  simpl in E. subst x.
  destruct rf as [s0|h];
    [|rewrite H in Hrun; injection Hrun as <- _; by apply Hnot in Hin].
  destruct (sort_run _ _) as [sorted|];
    [|rewrite H in Hrun; injection Hrun as <- _; by apply Hnot in Hin].
  destruct H as (tr2 & rw & Hw & H).
  pose proof (emits_write_notes (λ ext, creates ext = []) eq_refl
                (λ t u Ht Hu, eq_trans (creates_app t u)
                   (eq_trans (f_equal2 app Ht Hu) eq_refl))
                (λ _ _, eq_refl) (λ _ _ _ _, eq_refl) _ _ _ _ _ _ _ _ Hw)
    as (e2 & -> & Hcr2).
  pose proof (write_notes_failure _ _ _ _ _ _ _ _ o rp n e Hw e2 eq_refl)
    as Hfail.
  destruct rw as [buffer|h].
  - exfalso. destruct H as [_ H]. rewrite H in Hrun.
    apply publish_no_labels in Hrun as (e3 & -> & Hnl3).
    apply elem_of_app in Hin as [[Hin|Hin]%elem_of_app|Hin].
    + by apply Hnot in Hin.
    + by destruct (Hfail Hin).
    + by apply Hnot in Hin.
  - rewrite H in Hrun. injection Hrun as <- <-.
    apply elem_of_app in Hin as [Hin|Hin]; [by apply Hnot in Hin|].
    destruct (Hfail Hin) as ([= ->] & pre & ->).
    split; [done|]. split.
    + exists (tr1 ++ pre). by rewrite <- app_assoc.
    + by rewrite creates_app, Hcr, Hcr2.
Qed.

Lemma label_error_final_witness :
  let fl := sample.flags 10 20 true "1.0" "v1.0" in
  let gh := {| srv_List := λ _ _ _ op,
                 if Page (PRListOptions op) =? 1 then OK sample.page1
                 else OK [];
               srv_ListLabelsByIssue := λ _ _ _ _, Err "403 rate limit";
               srv_CreateRelease := λ _ _ _ _, Err "" |} in
  ∃ tr,
    run fl gh insertionSort 5 = (tr, Halt (Exit 1)) ∧
    ∃ pre, tr = pre ++ [ELabels "caicloud" "console-web" 15
                          (Err "403 rate limit");
                        ESleep (5 * Second);
                        contact_error "403 rate limit"].
Proof.
  intros fl gh. eexists. split; [by vm_compute|].
  eapply (label_error_final fl gh insertionSort 5 _ (Halt (Exit 1))).
  - by vm_compute.
  - repeat first [apply list_elem_of_here | apply list_elem_of_further].
Defined.

(** X9.  Without [--relnote-filter] no run asks for labels and no run
    sleeps. *)
Theorem no_labels_without_filter fl gh alg fuel :
  flag.relnoteFilter fl = false →
  Forall (λ e, is_label_or_sleep e = false) (run fl gh alg fuel).1.
Proof.
  intros Hf.
  destruct (decide (flag.last fl = 0)) as [Hg|Hlast].
  { unfold run. rewrite main_eq, Hg. by repeat constructor. }
  destruct (decide (flag.token fl = "")) as [Hg|Htoken].
  { unfold run. rewrite main_eq, Hg, orb_true_r. by repeat constructor. }
  destruct (run_phases fl gh alg fuel Hlast Htoken) as (tr1 & rf & Hloop & H).
  pose proof (fetch_loop_no_labels _ _ _ _ _ _ _ Hloop) as (? & E & Hnl & _).
  simpl in E. subst x.
  destruct rf as [s0|h]; [|by rewrite H].
  destruct (sort_run _ _) as [sorted|]; [|by rewrite H].
  destruct H as (tr2 & rw & Hw & H).
  apply (write_notes_silent _ _ _ _ _ _ _ _ Hf) in Hw as ->.
  destruct rw as [buffer|h]; [|by rewrite H].
  destruct H as [_ ->].
  destruct (publish _ _ _ _ _) as [tr3 r3] eqn:Hp.
  apply publish_no_labels in Hp as (e3 & -> & Hnl3). simpl.
  by apply Forall_app.
Qed.

Lemma no_labels_without_filter_witness :
  Forall (λ e, is_label_or_sleep e = false)
    (run (sample.flags 10 20 false "1.0" "v1.0")
         (sample.server [sample.page1] [sample.release_note]
            (OK (sample.created "https://github.com/r/1")))
         insertionSort 5).1.
Proof.
  by apply (no_labels_without_filter
              (sample.flags 10 20 false "1.0" "v1.0")).
Defined.

(** ** The end of the fetch loop *)

(** X5.  The fetch loop stops at the first page that comes back empty or as
    an error.  If page [k+1] is sure to be such a page, a run asks for at
    most [k+1] pages, and it ends: it returns, exits with status 1 or
    panics, the same way for any amount of fuel above [k]. *)
Theorem run_stops fl gh alg (k fuel : nat) :
  (∀ tr1, match srv_List gh tr1 (flag.owner fl) (flag.repository fl)
                  (opts fl (Z.of_nat (S k))) with
          | OK [] | Err _ => True
          | OK (_ :: _) => False
          end) →
  (k < fuel)%nat →
  run fl gh alg fuel = run fl gh alg (S k) ∧
  ((run fl gh alg fuel).2 = Ret tt ∨
   (run fl gh alg fuel).2 = Halt (Exit 1) ∨
   (run fl gh alg fuel).2 = Halt Panic) ∧
  (length (list_calls (run fl gh alg fuel).1) ≤ S k)%nat.
Proof.
  intros Hsrv Hk.
  pose proof (run_ends fl gh alg k (S k) Hsrv ltac:(lia)) as Hend.
  assert (run fl gh alg fuel = run fl gh alg (S k)) as Heq.
  { destruct (run fl gh alg (S k)) as [tr r] eqn:Hrun.
    apply (run_fuel _ _ _ _ fuel _ _ Hrun); [done|lia]. }
  split; [done|]. rewrite Heq. split.
  - destruct (run_outcome fl gh alg (S k)) as [|[|[|[? _]]]]; auto. done.
  - destruct (run_list_calls fl gh alg (S k)) as (n & Hn & ->).
    by rewrite length_fmap, length_seq.
Qed.

Lemma run_stops_witness :
  let fl := sample.flags 10 20 false "" "" in
  let gh := sample.server [sample.page1] [] (Err "") in
  run fl gh insertionSort 7 = run fl gh insertionSort 2 ∧
  (length (list_calls (run fl gh insertionSort 7).1) ≤ 2)%nat.
Proof.
  intros fl gh.
  destruct (run_stops fl gh insertionSort 1 7) as (H1 & _ & H2).
  - intros tr1. by vm_compute.
  - lia.
  - done.
Defined.

(** ** The scan of a page *)

(** X6.  The scan of a page stops at the merged pull request that has the
    number of "last": whatever follows it on the page is not looked at. *)
Theorem scan_stops_at_last fl before last_pr after s c tr :
  is_merged last_pr →
  Number last_pr = flag.last fl →
  scan_results fl (before ++ last_pr :: after) s c tr =
  scan_results fl (before ++ [last_pr]) s c tr.
Proof.
  intros Hm Hn. revert s c tr.
  induction before as [|pr before IH]; intros s c tr; simpl.
  - destruct (scan_result_spec fl last_pr s c tr)
      as (s' & c' & f & ext & Hrun & _ & _ & _ & _ & _ & _ & Hf).
    rewrite !(bind_Ret _ _ _ _ _ Hrun).
    unfold accumulated in Hf. apply Z.eqb_eq in Hn.
    rewrite Hn, (bool_decide_eq_true_2 _ Hm) in Hf. simpl in Hf. by subst f.
  - unfold mbind, M_bind.
    destruct (scan_result fl pr s c tr) as [tr1 [[[s1 c1] []]|h]]; auto.
Qed.

Lemma scan_stops_at_last_witness :
  let fl := sample.flags 10 20 false "" "" in
  ∃ tr s c,
    scan_results fl sample.page1 (initial fl)
      {| merged := 0; unmerged := 0 |} [] = (tr, Ret (s, c)) ∧
    (Number <$> prs s) = [30; 20; 15; 5] ∧
    scan_results fl sample.page1 (initial fl)
      {| merged := 0; unmerged := 0 |} [] =
    scan_results fl
      [sample.pr 30 (Some 300) 300; sample.pr 20 (Some 200) 200;
       sample.pr 15 (Some 150) 150; sample.pr 14 None 140;
       sample.pr 5 (Some 50) 120; sample.pr 10 (Some 100) 100]
      (initial fl) {| merged := 0; unmerged := 0 |} [].
Proof.
  intros fl. eexists _, _, _. split; [by vm_compute|]. split; [done|].
  apply (scan_stops_at_last fl
           [sample.pr 30 (Some 300) 300; sample.pr 20 (Some 200) 200;
            sample.pr 15 (Some 150) 150; sample.pr 14 None 140;
            sample.pr 5 (Some 50) 120]
           (sample.pr 10 (Some 100) 100) [sample.pr 3 (Some 30) 30]).
  - by exists 100.
  - done.
Defined.

Lemma scan_results_Forall (Q : PullRequest → Prop) fl results s c tr tr' s' c' :
  (∀ s result, accumulated fl s result = true → Q result) →
  Forall Q (prs s) →
  scan_results fl results s c tr = (tr', Ret (s', c')) →
  Forall Q (prs s').
Proof.
  intros HQ. revert s c tr. induction results as [|result rest IH];
    intros s c tr Hs; simpl.
  { by intros [= _ <- _]. }
  destruct (scan_result_spec fl result s c tr)
    as (s1 & c1 & f & ext & Hrun & _ & _ & Hprs & _).
  rewrite (bind_Ret _ _ _ _ _ Hrun).
  assert (Forall Q (prs s1)) as Hs1.
  { rewrite Hprs. destruct (accumulated fl s result) eqn:Hacc; [|done].
    apply Forall_app. split; [done|]. constructor; [|constructor]. eauto. }
  destruct f; [by apply IH|]. by intros [= _ <- _].
Qed.

Lemma fetch_step_Forall (Q : PullRequest → Prop) fl gh x y :
  (∀ s result, accumulated fl s result = true → Q result) →
  fetch_step fl gh x y → Forall Q (prs x.1) → Forall Q (prs y.1).
Proof.
  destruct x as [s tr], y as [s' tr']. intros HQ [_ Hpage] Hs.
  simpl in *. rewrite fetch_page_eq in Hpage. cbv zeta in Hpage.
  destruct (srv_List _ _ _ _ _) as [[|first rest]|e]; [| |done].
  { by injection Hpage as _ <-. }
  destruct (scan_results _ _ _ _ _) as [tr3 [[s2 c2]|h]] eqn:Hscan; [|done].
  injection Hpage as _ <-.
  eapply scan_results_Forall; [exact HQ| |exact Hscan].
  by destruct (current s =? 0).
Qed.

Lemma nsteps_Forall (Q : PullRequest → Prop) fl gh n x y :
  (∀ s result, accumulated fl s result = true → Q result) →
  nsteps (fetch_step fl gh) n x y →
  Forall Q (prs x.1) → Forall Q (prs y.1).
Proof.
  intros HQ. induction 1 as [|m x y z Hstep _ IH]; [done|]. intros Hx.
  apply IH. by eapply fetch_step_Forall.
Qed.

Lemma fetch_loop_Forall (Q : PullRequest → Prop) fl gh fuel tr0 tr s :
  (∀ s result, accumulated fl s result = true → Q result) →
  fetch_loop fl gh fuel (initial fl) tr0 = (tr, Ret s) → Forall Q (prs s).
Proof.
  intros HQ (_ & n & Hn & _)%fetch_loop_nsteps.
  by apply (nsteps_Forall Q _ _ _ _ _ HQ Hn).
Qed.

(** X7.  No candidate has the number of "last", and no line of the notes is
    the line of a pull request with that number: the pull request of the
    last release stays out of the notes even where merge times tie. *)
Theorem last_not_in_notes fl gh alg fuel tr0 tr s buffer :
  notes fl gh alg fuel tr0 = (tr, Ret (s, buffer)) →
  Forall (λ pr, Number pr ≠ flag.last fl) (prs s) ∧
  ∃ es, buffer = lines es ∧ Forall (λ pr, Number pr ≠ flag.last fl) es.
Proof.
  intros Hnotes.
  assert (Forall (λ pr, Number pr ≠ flag.last fl) (prs s)) as Hs.
  { apply notes_Ret in Hnotes as (s0 & tr1 & Hloop & Hsort & _).
    rewrite (sort_run_Permutation _ _ _ Hsort).
    eapply fetch_loop_Forall; [|exact Hloop].
    intros s1 result. unfold accumulated.
    intros [[_ H]%andb_true_iff _]%andb_true_iff.
    apply negb_true_iff in H. by apply Z.eqb_neq. }
  split; [done|].
  apply notes_emitted in Hnotes as (es & -> & Hex & _).
  exists es. split; [done|]. by eapply expands_Forall.
Qed.

Lemma last_not_in_notes_witness :
  ∃ tr s buffer,
    notes (sample.flags 10 20 false "" "")
          (sample.server [sample.page1] [] (Err "")) insertionSort 2 []
      = (tr, Ret (s, buffer)) ∧
    Forall (λ pr, Number pr ≠ 10) (prs s).
Proof.
  eexists _, _, _. split; [by vm_compute|].
  eapply (last_not_in_notes (sample.flags 10 20 false "" "")
            (sample.server [sample.page1] [] (Err "")) insertionSort 2 []).
  by vm_compute.
Defined.

(** ** The notes without the label filter *)

Lemma inside_strictly_between s pr :
  inside s pr = true ↔ strictly_between s pr.
Proof.
  unfold inside, strictly_between, Before. split.
  - destruct (lastVersionMerged s) as [l|], (MergedAt pr) as [m|],
      (currentVersionMerged s) as [c|]; try done.
    intros [?%Z.ltb_lt ?%Z.ltb_lt]%andb_true_iff. by exists l, m, c.
  - intros (l & m & c & -> & -> & -> & ? & ?).
    apply andb_true_iff. by split; apply Z.ltb_lt.
Qed.

Lemma write_note_unfiltered fl gh s pr buffer tr tr' buffer' :
  flag.relnoteFilter fl = false →
  write_note fl gh s pr buffer tr = (tr', Ret buffer') →
  buffer' = if inside s pr then buffer +:+ note_line pr else buffer.
Proof.
  intros Hf. unfold write_note, mbind, M_bind, inside.
  rewrite in_window_eq, Hf.
  destruct (lastVersionMerged s) as [l|]; [|done].
  destruct (MergedAt pr) as [m|]; [|done].
  destruct (Before l m); simpl.
  - destruct (currentVersionMerged s) as [c|]; [|done].
    destruct (Before m c); by intros [= _ <-].
  - intros [= _ <-]. by destruct (currentVersionMerged s).
Qed.

Lemma write_notes_unfiltered fl gh s l buffer tr tr' buffer' :
  flag.relnoteFilter fl = false →
  write_notes fl gh s l buffer tr = (tr', Ret buffer') →
  buffer' = buffer +:+ lines (filter (λ pr, inside s pr = true) l).
Proof.
  intros Hf. revert buffer tr. induction l as [|pr rest IH];
    intros buffer tr; simpl.
  { intros [= _ <-]. by rewrite append_nil_r. }
  intros (tr1 & b1 & Hw & Hrest)%bind_Ret_inv.
  apply (write_note_unfiltered _ _ _ _ _ _ _ _ Hf) in Hw as ->.
  apply IH in Hrest as ->. rewrite filter_cons.
  destruct (inside s pr); case_decide; try done.
  simpl. by rewrite append_assoc.
Qed.

(** X8.  Without the label filter the notes are exactly the lines of the
    candidates merged strictly between the two boundaries, one line each,
    in the order sorting left them in: no such candidate is missing. *)
Theorem notes_unfiltered fl gh alg fuel tr0 tr s buffer :
  flag.relnoteFilter fl = false →
  notes fl gh alg fuel tr0 = (tr, Ret (s, buffer)) →
  buffer = lines (filter (λ pr, inside s pr = true) (prs s)) ∧
  ∀ pr, inside s pr = true ↔ strictly_between s pr.
Proof.
  intros Hf (s0 & tr1 & _ & _ & _ & Hw)%notes_Ret.
  split; [|apply inside_strictly_between].
  by apply (write_notes_unfiltered _ _ _ _ _ _ _ _ Hf) in Hw.
Qed.

Lemma notes_unfiltered_witness :
  ∃ tr s buffer,
    notes (sample.flags 3 30 false "" "")
          (sample.server [sample.page1] [] (Err "")) insertionSort 2 []
      = (tr, Ret (s, buffer)) ∧
    (Number <$> prs s) = [5; 10; 15; 20; 30] ∧
    buffer = lines (filter (λ pr, inside s pr = true) (prs s)) ∧
    (Number <$> filter (λ pr, inside s pr = true) (prs s))
      = [5; 10; 15; 20].
Proof.
  eexists _, _, _. split; [by vm_compute|]. split; [done|]. split; [|done].
  eapply (notes_unfiltered (sample.flags 3 30 false "" "")
            (sample.server [sample.page1] [] (Err "")) insertionSort 2 []).
  - done.
  - by vm_compute.
Defined.

(** ** [byMerged] *)

(** X10.  On a slice of merged pull requests [Less] is the strict order
    that [sort.Sort] asks for: never true of an element and itself, never
    true both ways, transitive, and so is its negation. *)
Theorem Less_strict_order a i j k :
  Forall is_merged a →
  (i < Len a)%nat → (j < Len a)%nat → (k < Len a)%nat →
  Less a i i = Some false ∧
  (Less a i j = Some true → Less a j i = Some false) ∧
  (Less a i j = Some true → Less a j k = Some true → Less a i k = Some true) ∧
  (Less a i j = Some false → Less a j k = Some false →
   Less a i k = Some false).
Proof.
  intros Hm [x Hx]%lookup_lt_is_Some [y Hy]%lookup_lt_is_Some
    [z Hz]%lookup_lt_is_Some.
  destruct (Forall_lookup_1 _ _ _ _ Hm Hx) as [t Ht].
  destruct (Forall_lookup_1 _ _ _ _ Hm Hy) as [u Hu].
  destruct (Forall_lookup_1 _ _ _ _ Hm Hz) as [v Hv].
  rewrite (Less_Some a i i x x t t), (Less_Some a i j x y t u),
    (Less_Some a j i y x u t), (Less_Some a j k y z u v),
    (Less_Some a i k x z t v) by done.
  unfold Before. repeat split; intros; simplify_eq; f_equal; lia.
Qed.

Lemma Less_strict_order_witness :
  let a := [sample.pr 30 (Some 300) 300; sample.pr 20 (Some 200) 200;
            sample.pr 15 (Some 150) 150] in
  Less a 2 2 = Some false ∧
  (Less a 2 0 = Some true → Less a 0 2 = Some false).
Proof.
  intros a.
  assert (Forall is_merged a) as Hm by (repeat constructor; by eexists).
  destruct (Less_strict_order a 2 0 1 Hm) as (H1 & H2 & _);
    [simpl; lia..|].
  by split.
Defined.

(** X11.  [Swap] exchanges the two elements and leaves the rest and the
    length alone; swapping again gives the slice back; it panics exactly
    when an index is out of range. *)
Theorem Swap_exchange a i j :
  (Swap a i j = None ↔ ¬ ((i < Len a)%nat ∧ (j < Len a)%nat)) ∧
  ∀ a', Swap a i j = Some a' →
    Len a' = Len a ∧
    a' !! i = a !! j ∧ a' !! j = a !! i ∧
    (∀ k, k ≠ i → k ≠ j → a' !! k = a !! k) ∧
    Swap a' i j = Some a.
Proof.
  unfold Swap, Len. split.
  - split.
    + intros H [[x Hx]%lookup_lt_is_Some [y Hy]%lookup_lt_is_Some].
      by rewrite Hx, Hy in H.
    + intros H. destruct (a !! i) as [x|] eqn:Hx; [|done].
      destruct (a !! j) as [y|] eqn:Hy; [|done].
      destruct H. split; by eapply lookup_lt_Some.
  - intros a'. destruct (a !! i) as [x|] eqn:Hx; [|done].
    destruct (a !! j) as [y|] eqn:Hy; [|done]. simpl. intros [= <-].
    pose proof (lookup_lt_Some _ _ _ Hx) as Hi.
    pose proof (lookup_lt_Some _ _ _ Hy) as Hj.
    assert (<[j:=x]> (<[i:=y]> a) !! i = Some y) as Ei.
    { destruct (decide (i = j)) as [->|Hne].
      - rewrite list_lookup_insert_eq by (by rewrite length_insert).
        congruence.
      - rewrite list_lookup_insert_ne by done.
        by rewrite list_lookup_insert_eq. }
    assert (<[j:=x]> (<[i:=y]> a) !! j = Some x) as Ej.
    { by rewrite list_lookup_insert_eq by (by rewrite length_insert). }
    repeat split.
    + by rewrite !length_insert.
    + congruence.
    + congruence.
    + intros k Hki Hkj. by rewrite !list_lookup_insert_ne.
    + rewrite Ei, Ej. simpl. f_equal.
      apply list_eq. intros k.
      destruct (decide (k = j)) as [->|Hkj].
      { rewrite list_lookup_insert_eq by (by rewrite !length_insert).
        done. }
      rewrite list_lookup_insert_ne by done.
      destruct (decide (k = i)) as [->|Hki].
      { rewrite list_lookup_insert_eq by (by rewrite !length_insert).
        done. }
      by rewrite !list_lookup_insert_ne.
Qed.

Lemma Swap_exchange_witness :
  let a := [sample.pr 30 (Some 300) 300; sample.pr 20 (Some 200) 200;
            sample.pr 15 (Some 150) 150] in
  let a' := [sample.pr 15 (Some 150) 150; sample.pr 20 (Some 200) 200;
             sample.pr 30 (Some 300) 300] in
  Swap a 0 2 = Some a' ∧ Swap a' 0 2 = Some a ∧ Swap a 0 3 = None.
Proof.
  intros a a'. split; [done|]. split.
  - by destruct (proj2 (Swap_exchange a 0 2) a' eq_refl) as (_ & _ & _ & _ & H).
  - apply (proj1 (Swap_exchange a 0 3)). simpl. lia.
Defined.

(** X12.  Whatever routine sorts the candidates, it makes no call and
    prints nothing, and what it hands back, unless it panics, is the same
    pull requests in some order: none is lost, none comes twice. *)
Theorem sort_only_reorders alg a tr :
  (sort_Sort alg a tr).1 = tr ∧
  match (sort_Sort alg a tr).2 with
  | Ret a' => a' ≡ₚ a
  | Halt h => h = Panic
  end.
Proof.
  unfold sort_Sort. destruct (sort_run _ _) as [a'|] eqn:Hrun; [|done].
  split; [done|]. by eapply sort_run_Permutation.
Qed.

(** ** Two edge cases *)

Lemma sort_run_nil p : sort_in_range 0 p = true → sort_run p [] = Some [].
Proof.
  intros Hp.
  destruct (sort_run_is_Some p [] Hp (Forall_nil_2 _)) as [a' Ha].
  rewrite Ha. f_equal. apply Permutation_nil_r.
  by eapply sort_run_Permutation.
Qed.

(** X13.  When the first page comes back empty, the run asks for no other
    page, has no candidate and does not fail on the boundaries it never
    found: the notes are empty, and the run goes on to print the notes
    block and, with a tag name and a release name, to create a release
    with an empty body. *)
Theorem empty_first_page fl gh alg fuel :
  flag.last fl ≠ 0 → flag.token fl ≠ "" →
  alg_in_range alg →
  srv_List gh [fetching 1] (flag.owner fl) (flag.repository fl) (opts fl 1)
    = OK [] →
  let tr1 := [fetching 1;
              EList (flag.owner fl) (flag.repository fl) (opts fl 1)
                (OK [])] in
  let s := set_done (set_Page (initial fl) 1) true in
  notes fl gh alg (S fuel) [] = (tr1, Ret (s, "")) ∧
  run fl gh alg (S fuel) = publish fl gh s "" tr1.
Proof.
  intros Hlast Htoken Halg Hsrv tr1 s.
  assert (notes fl gh alg (S fuel) [] = (tr1, Ret (s, ""))) as Hnotes.
  { assert (fetch_page fl gh (initial fl) [] = (tr1, Ret s)) as Hpage.
    { rewrite fetch_page_eq. cbv zeta.
      change (opts_Page (initial fl) + 1) with 1. simpl app.
      by rewrite Hsrv. }
    assert (fetch_loop fl gh (S fuel) (initial fl) [] = (tr1, Ret s))
      as Hloop.
    { simpl. rewrite (bind_Ret _ _ _ _ _ Hpage). by destruct fuel. }
    unfold notes. rewrite (bind_Ret _ _ _ _ _ Hloop).
    unfold sort_Sort. simpl prs. simpl Len.
    by rewrite (sort_run_nil _ (Halg O)). }
  split; [done|]. by apply main_publish.
Qed.

Lemma empty_first_page_witness :
  let fl := sample.flags 10 0 false "1.0" "v1.0" in
  let gh := sample.server [] []
              (OK (sample.created "https://github.com/r/1")) in
  ∃ tr,
    run fl gh insertionSort 1 = (tr, Ret tt) ∧
    creates tr =
      [ECreateRelease "zjj2wry" "console-web" (release fl "")
         (OK (sample.created "https://github.com/r/1"))].
Proof.
  intros fl gh. eexists.
  destruct (empty_first_page fl gh insertionSort 0) as [_ ->];
    [done|done|apply insertionSort_in_range|done|].
  split; by vm_compute.
Defined.

(** X14.  When no fetched pull request has the number of "last", the lower
    boundary is never recorded; if the scan found any candidate at all,
    writing the notes then panics on the first of them, and nothing is
    printed of the notes. *)
Theorem last_not_found fl gh alg fuel tr0 tr1 s :
  fetch_loop fl gh fuel (initial fl) tr0 = (tr1, Ret s) →
  (∀ pr, fetched tr1 pr → Number pr ≠ flag.last fl) →
  lastVersionMerged s = None ∧
  (alg_in_range alg → prs s ≠ [] →
   ∃ tr, notes fl gh alg fuel tr0 = (tr, Halt Panic) ∧ tr = tr1).
Proof.
  intros Hloop Hno.
  pose proof (fetch_loop_inv _ _ _ _ _ _ Hloop) as (Hm & _ & Hl & _).
  simpl in *.
  assert (lastVersionMerged s = None) as HlN.
  { destruct (lastVersionMerged s) as [l|] eqn:E; [|done].
    destruct (Hl l eq_refl) as (pr & Hf & Hn & _). by apply Hno in Hf. }
  split; [done|]. intros Halg Hne.
  unfold notes. rewrite (bind_Ret _ _ _ _ _ Hloop).
  unfold sort_Sort.
  destruct (sort_run_is_Some _ _ (Halg (Len (prs s))) Hm) as [sorted Hs].
  rewrite Hs. unfold mret, M_ret, mbind, M_bind.
  pose proof (sort_run_Permutation _ _ _ Hs) as Hperm.
  destruct (write_notes fl gh (set_prs s sorted) (prs (set_prs s sorted)) ""
              tr1) as [tr2 rw] eqn:Hw.
  assert (rw = Halt Panic) as ->.
  { change rw with (tr2, rw).2. rewrite <- Hw.
    apply write_notes_Panic; simpl; [by rewrite Hperm|].
    split; [|by left].
    intros E. rewrite E in Hperm. symmetry in Hperm.
    by apply Permutation_nil_r in Hperm. }
  exists tr2. split; [done|].
  destruct sorted as [|pr rest]; simpl in Hw.
  - by injection Hw.
  - unfold write_note, mbind, M_bind in Hw.
    rewrite in_window_eq in Hw. simpl in Hw. rewrite HlN in Hw.
    by injection Hw.
Qed.

Lemma last_not_found_witness :
  let fl := sample.flags 7 20 false "" "" in
  let gh := sample.server [sample.page1] [] (Err "") in
  ∃ tr1 s,
    fetch_loop fl gh 2 (initial fl) [] = (tr1, Ret s) ∧
    lastVersionMerged s = None ∧
    notes fl gh insertionSort 2 [] = (tr1, Halt Panic).
Proof.
  intros fl gh. eexists _, _. split; [by vm_compute|].
  destruct (last_not_found fl gh insertionSort 2 [] _ _ eq_refl)
    as (Hl & Hp).
  - intros pr (o & r & op & results & Hin & Hpr).
    vm_compute in Hin.
    repeat (apply elem_of_cons in Hin as [Hin|Hin]; [try by simplify_eq|]).
    all: try (by apply elem_of_nil in Hin).
    all: simplify_eq.
    all: repeat (apply elem_of_cons in Hpr as [->|Hpr]; [done|]).
    all: by apply elem_of_nil in Hpr.
  - split; [exact Hl|].
    destruct Hp as (tr & Hn & ->); [apply insertionSort_in_range|done|].
    exact Hn.
Defined.

(** ** The counters of a page *)

Lemma scan_result_counters fl result s c tr tr' s' c' f :
  scan_result fl result s c tr = (tr', Ret (s', c', f)) →
  merged c' = merged c + (if accumulated fl s result then 1 else 0) ∧
  unmerged c' =
    unmerged c + (if bool_decide (is_merged result) then 0 else 1).
Proof.
  unfold scan_result, accumulated, is_merged, past_last.
  destruct (MergedAt result) as [m|]; simpl;
    [destruct (Number result =? flag.last fl); simpl;
     [|destruct (lastVersionMerged s) as [l|]; simpl;
       [destruct (After l (UpdatedAt result)); simpl|];
       try destruct (Number result =? current s)]|];
    cbv beta iota zeta delta [mbind M_bind mret M_ret Printf emit];
    intros [= _ _ <- _]; simpl; lia.
Qed.

Lemma scan_results_counters fl results s c tr tr' s' c' :
  scan_results fl results s c tr = (tr', Ret (s', c')) →
  Z.of_nat (length (prs s')) - Z.of_nat (length (prs s))
    = merged c' - merged c ∧
  0 ≤ unmerged c' - unmerged c ∧
  (merged c' - merged c) + (unmerged c' - unmerged c)
    ≤ Z.of_nat (length results).
Proof.
  revert s c tr. induction results as [|result rest IH]; intros s c tr.
  { simpl. intros [= _ <- <-]. lia. }
  cbn [scan_results].
  intros (tr1 & [[s1 c1] f] & Hone & Hrest)%bind_Ret_inv.
  pose proof (scan_result_counters _ _ _ _ _ _ _ _ _ Hone) as [Hm Hu].
  destruct (scan_result_spec fl result s c tr)
    as (s1' & c1' & f' & ext & Hrun & _ & _ & Hprs & _).
  rewrite Hone in Hrun. injection Hrun as _ <- <- <-.
  assert (Z.of_nat (length (prs s1)) - Z.of_nat (length (prs s))
          = merged c1 - merged c) as Hlen.
  { rewrite Hprs, Hm. destruct (accumulated fl s result); [|lia].
    rewrite length_app. simpl. lia. }
  assert (0 ≤ unmerged c1 - unmerged c ≤ 1 ∧
          merged c1 - merged c + (unmerged c1 - unmerged c) ≤ 1) as Hone'.
  { rewrite Hm, Hu. unfold accumulated.
    destruct (bool_decide (is_merged result)); simpl; [|lia].
    destruct (_ && _); lia. }
  simpl length.
  destruct f.
  - apply IH in Hrest as (? & ? & ?). lia.
  - injection Hrest as _ <- <-. lia.
Qed.

(** X15.  After the scan of a page that is not empty the run prints two
    counts: the first is the number of candidates the page added, the
    second the number of pull requests the scan met that were closed
    without a merge; together they are at most the length of the page. *)
Theorem page_counts_printed fl gh s tr s' tr' first rest :
  fetch_page fl gh s tr = (tr', Ret s') →
  srv_List gh (tr ++ [fetching (opts_Page s + 1)]) (flag.owner fl)
    (flag.repository fl) (opts fl (opts_Page s + 1)) = OK (first :: rest) →
  ∃ pre u,
    tr' = pre ++ [page_counts
                    (Z.of_nat (length (prs s')) - Z.of_nat (length (prs s)))
                    u] ∧
    0 ≤ u ∧
    Z.of_nat (length (prs s')) - Z.of_nat (length (prs s)) + u
      ≤ Z.of_nat (length (first :: rest)).
Proof.
  intros Hpage Hsrv. rewrite fetch_page_eq in Hpage. cbv zeta in Hpage.
  rewrite Hsrv in Hpage.
  destruct (scan_results _ _ _ _ _) as [tr3 [[s2 c2]|h]] eqn:Hscan; [|done].
  injection Hpage as <- <-.
  apply scan_results_counters in Hscan as (Hlen & Hu & Hsum).
  assert (prs (if current s =? 0
               then set_current (set_Page s (opts_Page s + 1)) (Number first)
               else set_Page s (opts_Page s + 1)) = prs s) as E
    by (by destruct (current s =? 0)).
  rewrite E in Hlen. simpl in Hlen, Hu, Hsum.
  exists tr3, (unmerged c2). rewrite Hlen, Z.sub_0_r.
  simpl length. repeat split; (done || lia).
Qed.

Lemma page_counts_printed_witness :
  let fl := sample.flags 10 20 false "" "" in
  let gh := sample.server [sample.page1] [] (Err "") in
  ∃ s' tr',
    fetch_page fl gh (initial fl) [] = (tr', Ret s') ∧
    (Number <$> prs s') = [30; 20; 15; 5] ∧
    last tr' = Some (page_counts 4 1) ∧
    ∃ pre u,
      tr' = pre ++ [page_counts
                      (Z.of_nat (length (prs s')) -
                       Z.of_nat (length (prs (initial fl)))) u] ∧
      0 ≤ u ∧
      Z.of_nat (length (prs s')) - Z.of_nat (length (prs (initial fl))) + u
        ≤ Z.of_nat (length sample.page1).
Proof.
  intros fl gh. eexists _, _. split; [by vm_compute|].
  split; [done|]. split; [done|].
  eapply (page_counts_printed fl gh (initial fl) [] _ _
            (sample.pr 30 (Some 300) 300) (tail sample.page1));
    by vm_compute.
Defined.

(** ** The calls for labels *)

Lemma label_calls_app t u :
  label_calls (t ++ u) = label_calls t ++ label_calls u.
Proof.
  induction t as [|e t IH]; [done|]. destruct e; simpl; by rewrite ?IH.
Qed.

Lemma write_note_label_calls fl gh s pr buffer tr tr' buffer' :
  flag.relnoteFilter fl = true →
  write_note fl gh s pr buffer tr = (tr', Ret buffer') →
  ∃ ext, tr' = tr ++ ext ∧
         label_calls ext =
           if inside s pr
           then [(flag.owner fl, flag.repository fl, Number pr)] else [].
Proof.
  intros Hf. unfold write_note, mbind, M_bind, inside.
  rewrite in_window_eq, Hf.
  destruct (lastVersionMerged s) as [l|]; [|done].
  destruct (MergedAt pr) as [m|]; [|done].
  assert (Hnil : ∀ b : string, (tr, Ret b) = (tr', Ret buffer') →
            ∃ ext, tr' = tr ++ ext ∧ label_calls ext = []).
  { intros b [= <- _]. exists []. by rewrite app_nil_r. }
  destruct (Before l m); simpl.
  - destruct (currentVersionMerged s) as [c|]; [|done].
    destruct (Before m c); [|by apply Hnil]. simpl.
    unfold Issues_ListLabelsByIssue.
    cbv beta iota zeta delta [mbind M_bind mret M_ret Printf Sleep emit
                              os_Exit].
    destruct (srv_ListLabelsByIssue _ _ _ _ _) as [labels|e]; [|done].
    intros [= <- _]. eexists. split; [by rewrite <- !app_assoc|]. done.
  - intros H. destruct (Hnil _ H) as (ext & -> & Hc). exists ext.
    split; [done|]. rewrite Hc. by destruct (currentVersionMerged s).
Qed.

Lemma write_notes_label_calls fl gh s l buffer tr tr' buffer' :
  flag.relnoteFilter fl = true →
  write_notes fl gh s l buffer tr = (tr', Ret buffer') →
  ∃ ext, tr' = tr ++ ext ∧
         label_calls ext =
           (λ pr, (flag.owner fl, flag.repository fl, Number pr))
           <$> filter (λ pr, inside s pr = true) l.
Proof.
  intros Hf. revert buffer tr. induction l as [|pr rest IH];
    intros buffer tr; simpl.
  { intros [= <- _]. exists []. by rewrite app_nil_r. }
  intros (tr1 & b1 & Hw & Hrest)%bind_Ret_inv.
  apply (write_note_label_calls _ _ _ _ _ _ _ _ Hf) in Hw
    as (e1 & -> & Hc1).
  apply IH in Hrest as (e2 & -> & Hc2).
  exists (e1 ++ e2). split; [by rewrite app_assoc|].
  rewrite label_calls_app, Hc1, Hc2, filter_cons.
  destruct (inside s pr); by case_decide.
Qed.

(** X16.  Under the label filter a run that finishes the notes has asked
    for the labels of each candidate inside the window, once each, in the
    order of the notes, in the repository of [--owner] and [--repository],
    and of no other pull request. *)
Theorem label_calls_in_window fl gh alg fuel tr s buffer :
  flag.relnoteFilter fl = true →
  notes fl gh alg fuel [] = (tr, Ret (s, buffer)) →
  label_calls tr =
    (λ pr, (flag.owner fl, flag.repository fl, Number pr))
    <$> filter (λ pr, inside s pr = true) (prs s).
Proof.
  intros Hf (s0 & tr1 & Hloop & _ & _ & Hw)%notes_Ret.
  pose proof (emits_fetch_loop (λ ext, label_calls ext = []) eq_refl
                (λ t u Ht Hu, eq_trans (label_calls_app t u)
                   (eq_trans (f_equal2 app Ht Hu) eq_refl))
                (λ _ _, eq_refl) (λ _, eq_refl) (λ _ _ _ _, eq_refl)
                _ _ _ _ _ _ _ Hloop) as (e1 & -> & Hc1).
  apply (write_notes_label_calls _ _ _ _ _ _ _ _ Hf) in Hw
    as (e2 & -> & Hc2).
  simpl. by rewrite label_calls_app, Hc1, Hc2.
Qed.

Lemma label_calls_in_window_witness :
  let fl := sample.flags 3 30 true "" "" in
  let gh := sample.server [sample.page1] [sample.bug] (Err "") in
  ∃ tr s,
    notes fl gh insertionSort 2 [] = (tr, Ret (s, "")) ∧
    label_calls tr =
      [("caicloud", "console-web", 5); ("caicloud", "console-web", 10);
       ("caicloud", "console-web", 15); ("caicloud", "console-web", 20)].
Proof.
  intros fl gh. eexists _, _. split; [by vm_compute|].
  etrans; [eapply (label_calls_in_window fl gh insertionSort 2);
            [done|by vm_compute]|].
  by vm_compute.
Defined.

(** ** Why the fetch loop ends *)

Lemma scan_results_done fl results s c tr tr' s' c' :
  done s = false →
  scan_results fl results s c tr = (tr', Ret (s', c')) →
  done s' = true →
  ∃ pr l, pr ∈ results ∧ is_merged pr ∧ Number pr ≠ flag.last fl ∧
          lastVersionMerged s' = Some l ∧ UpdatedAt pr < l.
Proof.
  revert s c tr. induction results as [|result rest IH]; intros s c tr Hd.
  { simpl. intros [= _ <- _]. congruence. }
  cbn [scan_results].
  destruct (scan_result_spec fl result s c tr)
    as (s1 & c1 & f & ext & Hrun & _ & _ & _ & Hl & _ & Hdone & Hf).
  rewrite (bind_Ret _ _ _ _ _ Hrun).
  destruct (bool_decide (is_merged result) &&
            negb (Number result =? flag.last fl) && past_last s result)
    eqn:Hfire.
  - apply andb_true_iff in Hfire as [[Hm Hn]%andb_true_iff Hp].
    apply bool_decide_eq_true in Hm. apply negb_true_iff in Hn.
    unfold accumulated in Hf.
    rewrite (bool_decide_eq_true_2 _ Hm), Hn, Hp in Hf. simpl in Hf.
    subst f. intros [= _ <- _] _.
    rewrite (bool_decide_eq_true_2 _ Hm), Hn in Hl. simpl in Hl.
    unfold past_last, After in Hp.
    destruct (lastVersionMerged s) as [l|] eqn:E; [|done].
    exists result, l. repeat split; auto.
    + constructor.
    + by apply Z.eqb_neq.
    + by apply Z.ltb_lt.
  - rewrite Hd in Hdone. simpl in Hdone. destruct f.
    + intros Hrest Hd'.
      destruct (IH _ _ _ Hdone Hrest Hd') as (pr & l & ? & ?).
      exists pr, l. split; [by constructor|done].
    + intros [= _ <- _]. congruence.
Qed.

(** X17.  A turn of the fetch loop that runs to its end sets [done], and so
    ends the loop, in two cases only: the page came back empty, or the scan
    met on it a merged pull request, not "last" itself, that was updated
    before the recorded merge time of "last". *)
Theorem fetch_ends_because fl gh s tr s' tr' :
  done s = false →
  fetch_page fl gh s tr = (tr', Ret s') →
  done s' = true →
  let resp := srv_List gh (tr ++ [fetching (opts_Page s + 1)])
                (flag.owner fl) (flag.repository fl)
                (opts fl (opts_Page s + 1)) in
  resp = OK [] ∨
  ∃ results pr l,
    resp = OK results ∧ pr ∈ results ∧ is_merged pr ∧
    Number pr ≠ flag.last fl ∧
    lastVersionMerged s' = Some l ∧ UpdatedAt pr < l.
Proof.
  intros Hd Hpage Hd' resp. rewrite fetch_page_eq in Hpage.
  cbv zeta in Hpage. fold resp in Hpage.
  destruct resp as [[|first rest]|e]; [by left| |done]. right.
  destruct (scan_results _ _ _ _ _) as [tr3 [[s2 c2]|h]] eqn:Hscan; [|done].
  injection Hpage as _ <-.
  apply scan_results_done in Hscan as (pr & l & ?); [|by destruct (_ =? _)|done].
  by exists (first :: rest), pr, l.
Qed.

(** Page 2 holds #3, merged and updated long before #10 was merged: the
    loop ends there, without asking for page 3. *)
Lemma fetch_ends_because_witness :
  let fl := sample.flags 10 20 false "" "" in
  let gh := sample.server
              [[sample.pr 20 (Some 200) 200; sample.pr 10 (Some 100) 100];
               [sample.pr 3 (Some 30) 30]; [sample.pr 2 (Some 20) 20]]
              [] (Err "") in
  ∃ s1 tr1 s2 tr2,
    fetch_page fl gh (initial fl) [] = (tr1, Ret s1) ∧
    fetch_page fl gh s1 tr1 = (tr2, Ret s2) ∧
    done s1 = false ∧ done s2 = true ∧
    ∃ results pr l,
      srv_List gh (tr1 ++ [fetching (opts_Page s1 + 1)])
        (flag.owner fl) (flag.repository fl) (opts fl (opts_Page s1 + 1))
        = OK results ∧
      pr ∈ results ∧ is_merged pr ∧ Number pr ≠ flag.last fl ∧
      lastVersionMerged s2 = Some l ∧ UpdatedAt pr < l.
Proof.
  intros fl gh. eexists _, _, _, _.
  split; [by vm_compute|]. split; [by vm_compute|].
  lazymatch goal with
  | |- done ?s1 = false ∧ done ?s2 = true ∧
       ∃ results pr l, srv_List _ (?tr1 ++ _) _ _ _ = _ ∧ _ =>
      split; [done|]; split; [done|];
      destruct (fetch_ends_because fl gh s1 tr1 s2 _ eq_refl
                  ltac:(by vm_compute) eq_refl) as [H|H];
        [by vm_compute in H|exact H]
  end.
Defined.
